(** * Limit/offset pagination (package [pagination]): model and properties

    A shallow embedding of [limit-offset/pagination.go]: the parameter
    extractor [FindParams], the renderers [Params.Query] and
    [Params.SortURL], and the page builder [Paginate] with its helpers
    [buildLinks] and [buildData].

    Conventions.
    - Go's [uint] is an integer of 32 or 64 bits, depending on the target.
      Values are carried as [Z]; every operation that can leave the range
      wraps explicitly ([wrap]).  The width is the parameter [Arch].
    - Go strings are byte sequences: [string] of [ascii].
    - [[]T] is [list T]; a slice expression that Go would refuse at run time
      yields [None].
    - [req.URL.Query()] is represented by the [url.Values] map it returns,
      a finite map from keys to the list of their values. *)

From Stdlib Require Import ZArith Lia List Ascii String.
From Stdlib Require Import DecimalString DecimalPos DecimalN DecimalFacts.
From stdpp Require Import base option list gmap strings.

Local Open Scope Z_scope.

(** ** Machine integers *)

Inductive Arch := Arch32 | Arch64.

Definition uintBits (a : Arch) : Z :=
  match a with Arch32 => 32 | Arch64 => 64 end.

(** Reduction to the range of [uint]: the result of a Go [uint] operation,
    and of a conversion [uint(x)]. *)
Definition wrap (a : Arch) (z : Z) : Z := z mod 2 ^ uintBits a.

Definition uadd (a : Arch) (x y : Z) : Z := wrap a (x + y).
Definition usub (a : Arch) (x y : Z) : Z := wrap a (x - y).

(** [x] is a value of type [uint]. *)
Definition is_uint (a : Arch) (x : Z) : Prop := 0 <= x < 2 ^ uintBits a.

(** [n] is a value of type [int] that is the length of a slice. *)
Definition is_len (a : Arch) (n : nat) : Prop :=
  Z.of_nat n < 2 ^ (uintBits a - 1).

(** ** Strings: the parts of [strings], [strconv] and [fmt] the package uses *)

(** [strings.Join]. *)
Fixpoint Join (elems : list string) (sep : string) : string :=
  match elems with
  | [] => ""
  | [e] => e
  | e :: rest => e +:+ sep +:+ Join rest sep
  end.

(** [strings.Split], for the one-byte separators the package passes
    ([","] and ["."]): the substrings between the occurrences of [sep],
    one more than there are occurrences. *)
Fixpoint Split (s : string) (sep : ascii) : list string :=
  match s with
  | EmptyString => [EmptyString]
  | String c rest =>
      if Ascii.eqb c sep then EmptyString :: Split rest sep
      else match Split rest sep with
           | [] => [String c EmptyString]
           | t :: ts => String c t :: ts
           end
  end.

(** Decimal rendering of an unsigned value, as [%d] prints it. *)
Definition FormatUint (u : Z) : string :=
  NilEmpty.string_of_uint (N.to_uint (Z.to_N u)).

Definition FormatInt (i : Z) : string :=
  if i <? 0 then String "-" (FormatUint (- i)) else FormatUint i.

(** Operands of [fmt.Sprintf], by dynamic type. *)
Inductive fmtArg :=
| ArgString (s : string)
| ArgUint (u : Z)
| ArgInt (i : Z).

Definition fmtType (x : fmtArg) : string :=
  match x with
  | ArgString _ => "string"
  | ArgUint _ => "uint"
  | ArgInt _ => "int"
  end.

Definition fmtValue (x : fmtArg) : string :=
  match x with
  | ArgString s => s
  | ArgUint u => FormatUint u
  | ArgInt i => FormatInt i
  end.

(** One verb applied to one operand.  The verbs of the package are [%s] on
    strings and [%d] on integers; [%v] is the default format.  A verb that
    does not fit its operand prints Go's [%!verb(type=value)]; the other
    verbs of [fmt] are outside this model. *)
Definition fmtVerb (verb : ascii) (x : fmtArg) : string :=
  match verb, x with
  | "s"%char, ArgString s => s
  | "d"%char, ArgUint u => FormatUint u
  | "d"%char, ArgInt i => FormatInt i
  | "v"%char, _ => fmtValue x
  | _, _ => "%!" +:+ String verb ("(" +:+ fmtType x +:+ "=" +:+ fmtValue x +:+ ")")
  end.

(** [fmt.Sprintf]: literal text is copied, [%%] is a percent sign, every
    other verb consumes the next operand ([%!verb(MISSING)] when there is
    none, [%!(NOVERB)] for a trailing percent sign). *)
Fixpoint Sprintf (format : string) (args : list fmtArg) : string :=
  match format with
  | EmptyString => ""
  | String "%" EmptyString => "%!(NOVERB)"
  | String "%" (String "%" rest) => String "%" (Sprintf rest args)
  | String "%" (String verb rest) =>
      match args with
      | x :: args' => fmtVerb verb x +:+ Sprintf rest args'
      | [] => "%!" +:+ String verb "(MISSING)" +:+ Sprintf rest []
      end
  | String c rest => String c (Sprintf rest args)
  end.

(** Errors of [strconv]: the [Err] field of a [*strconv.NumError]. *)
Inductive error := ErrSyntax | ErrRange.

Definition isDigit (c : ascii) : bool :=
  (48 <=? Z.of_N (N_of_ascii c)) && (Z.of_N (N_of_ascii c) <=? 57).

Definition digitVal (c : ascii) : Z := Z.of_N (N_of_ascii c) - 48.

Definition maxUint64 : Z := 2 ^ 64 - 1.

(** The digit loop of [strconv.ParseUint] in base 10, on [uint64] with its
    wrap-around: [n] is the value read so far, [maxVal] the largest value of
    the requested size.  A byte that is no digit is a syntax error; a value
    above [maxVal] a range error, reported with [maxVal]. *)
Fixpoint parseDigits (maxVal : Z) (s : string) (n : Z) : Z * option error :=
  match s with
  | EmptyString => (n, None)
  | String c rest =>
      if isDigit c then
        let d := digitVal c in
        let cutoff := maxUint64 / 10 + 1 in
        if cutoff <=? n then (maxVal, Some ErrRange)
        else
          let n10 := (n * 10) mod 2 ^ 64 in
          let n1 := (n10 + d) mod 2 ^ 64 in
          if (n1 <? n10) || (maxVal <? n1) then (maxVal, Some ErrRange)
          else parseDigits maxVal rest n1
      else (0, Some ErrSyntax)
  end.

(** [strconv.ParseUint(s, 10, bitSize)] for [0 < bitSize <= 64]. *)
Definition ParseUint (s : string) (bitSize : Z) : Z * option error :=
  if String.eqb s "" then (0, Some ErrSyntax)
  else parseDigits (2 ^ bitSize - 1) s 0.

(** ** The package *)

Definition ParamPageLimit : string := "page[limit]".
Definition ParamPageOffset : string := "page[offset]".
Definition ParamSortBy : string := "sort".

(** [Params.Sort] and [Response.Links] carry a prime: the field and its type
    share a name in Go. *)
Record Sort := { Field : string; Order : string }.

Record Params := { Limit : Z; Offset : Z; Sort' : list Sort }.

Record Links := { First : string; Prev : string; Next : string; Last : string }.

Record Response (A : Type) := { Data : list A; Links' : Links }.
Arguments Data {A} _.
Arguments Links' {A} _.

(** [url.Values.Get]: the first value of the key, [""] when there is none. *)
Definition Get (v : gmap string (list string)) (key : string) : string :=
  match v !! key with
  | Some (x :: _) => x
  | _ => ""
  end.

(** [Params.SortURL]. *)
Definition SortURL (p : Params) : string :=
  if 0 <? Z.of_nat (length (Sort' p)) then
    let sortParams := Sprintf "%s=" [ArgString ParamSortBy] in
    let tmp :=
      fold_left
        (fun tmp s => tmp ++ [Sprintf "%s.%s" [ArgString (Field s); ArgString (Order s)]])
        (Sort' p) [] in
    sortParams +:+ Join tmp ","
  else "".

(** [Params.Query]. *)
Definition Query (a : Arch) (p : Params) : string :=
  let query :=
    Sprintf " LIMIT %d OFFSET %d " [ArgUint (uadd a (Limit p) 1); ArgUint (Offset p)] in
  if 0 <? Z.of_nat (length (Sort' p)) then
    let query := query +:+ "ORDER BY " in
    let tmp :=
      fold_left
        (fun tmp s => tmp ++ [Sprintf "%s %s" [ArgString (Field s); ArgString (Order s)]])
        (Sort' p) [] in
    query +:+ Join tmp ","
  else query.

(** Control flow of a function body with early [return]: a statement either
    leaves the function with its results or falls through with the updated
    local state. *)
Inductive flow (R S : Type) :=
| Return (r : R)
| Fallthrough (s : S).
Arguments Return {R S} _.
Arguments Fallthrough {R S} _.

Definition andThen {R S T} (c : flow R S) (k : S -> flow R T) : flow R T :=
  match c with
  | Return r => Return r
  | Fallthrough s => k s
  end.

Notation "x <- c ;; k" := (andThen c (fun x => k))
  (at level 100, c at next level, right associativity).

Definition result {R} (c : flow R R) : R :=
  match c with
  | Return r => r
  | Fallthrough r => r
  end.

(** [FindParams].  [query] is [req.URL.Query()]. *)
Definition FindParams (a : Arch) (query : gmap string (list string))
    (defaultOffset defaultLimit : Z) : Params * option error :=
  let params := {| Limit := defaultLimit; Offset := defaultOffset; Sort' := [] |} in
  let limit := Get query ParamPageLimit in
  let offset := Get query ParamPageOffset in
  let sort := Get query ParamSortBy in
  result (
    params <-
      (if negb (String.eqb limit "") then
         match ParseUint limit 32 with
         | (_, Some err) => Return (params, Some err)
         | (convertedLimit, None) =>
             Fallthrough {| Limit := wrap a convertedLimit;
                            Offset := Offset params;
                            Sort' := Sort' params |}
         end
       else Fallthrough params) ;;
    params <-
      (if negb (String.eqb offset "") then
         match ParseUint offset 32 with
         | (_, Some err) => Return (params, Some err)
         | (convertedOffset, None) =>
             Fallthrough {| Limit := Limit params;
                            Offset := wrap a convertedOffset;
                            Sort' := Sort' params |}
         end
       else Fallthrough params) ;;
    params <-
      (if negb (String.eqb sort "") then
         let sortFields := Split sort "," in
         Fallthrough
           (fold_left
              (fun params field =>
                 let v := Split field "." in
                 if (Z.of_nat (length v) =? 2) then
                   {| Limit := Limit params;
                      Offset := Offset params;
                      Sort' := Sort' params ++
                               [{| Field := nth 0 v ""; Order := nth 1 v "" |}] |}
                 else params)
              sortFields params)
       else Fallthrough params) ;;
    Return (params, None)).

(** The slice expression [data[:hi]]: [None] where Go panics.  Go admits
    [hi] up to the capacity; a list has none, so the length is the bound. *)
Definition sliceTo {A} (data : list A) (hi : Z) : option (list A) :=
  if (0 <=? hi) && (hi <=? Z.of_nat (length data))
  then Some (firstn (Z.to_nat hi) data)
  else None.

(** Field assignments on [Links]. *)
Definition setFirst (links : Links) (v : string) : Links :=
  {| First := v; Prev := Prev links; Next := Next links; Last := Last links |}.
Definition setPrev (links : Links) (v : string) : Links :=
  {| First := First links; Prev := v; Next := Next links; Last := Last links |}.
Definition setNext (links : Links) (v : string) : Links :=
  {| First := First links; Prev := Prev links; Next := v; Last := Last links |}.

(** [buildLinks].  The named result [links] starts as the zero value. *)
Definition buildLinks (a : Arch) (baseURL : string) (params : Params)
    (dataSize : Z) : Links :=
  let links := {| First := ""; Prev := ""; Next := ""; Last := "" |} in
  let sortURL := SortURL params in
  let links :=
    setFirst links
      (Sprintf "%s?%s=%d&%s=%d"
         [ArgString baseURL; ArgString ParamPageLimit; ArgUint (Limit params);
          ArgString ParamPageOffset; ArgInt 0]) in
  let links :=
    if negb (String.eqb sortURL "")
    then setFirst links (First links +:+ Sprintf "&%s" [ArgString sortURL])
    else links in
  let links :=
    if Limit params <? wrap a dataSize then
      let links :=
        setNext links
          (Sprintf "%s?%s=%d&%s=%d"
             [ArgString baseURL; ArgString ParamPageLimit; ArgUint (Limit params);
              ArgString ParamPageOffset;
              ArgUint (uadd a (Offset params) (Limit params))]) in
      if negb (String.eqb sortURL "")
      then setNext links (Next links +:+ Sprintf "&%s" [ArgString sortURL])
      else links
    else links in
  let links :=
    if 0 <? Offset params then
      let links :=
        setPrev links
          (Sprintf "%s?%s=%d&%s=%d"
             [ArgString baseURL; ArgString ParamPageLimit; ArgUint (Limit params);
              ArgString ParamPageOffset;
              ArgUint (usub a (Offset params) (Limit params))]) in
      if negb (String.eqb sortURL "")
      then setPrev links (Prev links +:+ Sprintf "&%s" [ArgString sortURL])
      else links
    else links in
  links.

(** [buildData]. *)
Definition buildData {A} (a : Arch) (data : list A) (params : Params)
    : option (list A) :=
  if Limit params <? wrap a (Z.of_nat (length data)) then
    sliceTo data (Z.of_nat (length data) - 1)
  else Some data.

(** [Paginate]: the composite literal evaluates [buildData], then
    [buildLinks]. *)
Definition Paginate {A} (a : Arch) (data : list A) (baseURL : string)
    (params : Params) : option (Response A) :=
  d ← buildData a data params;
  Some {| Data := d; Links' := buildLinks a baseURL params (Z.of_nat (length data)) |}.

(** ** Notions used to state the properties *)

(** The value a string of decimal digits denotes; [None] for the empty string
    and for a string with any other byte. *)
Definition decimalValue (s : string) : option Z :=
  if String.eqb s "" then None
  else (fun d => Z.of_N (N.of_uint d)) <$> NilEmpty.uint_of_string s.

(** The value of the digits of [s] read after the value [n]. *)
Fixpoint readDigits (s : string) (n : Z) : Z :=
  match s with
  | EmptyString => n
  | String c rest => readDigits rest (10 * n + digitVal c)
  end.

(** The value of a numeral that fits 32 bits: what [ParseUint(s, 10, 32)]
    accepts. *)
Definition uint32Value (s : string) : option Z :=
  match decimalValue s with
  | Some v => if v <? 2 ^ 32 then Some v else None
  | None => None
  end.

(** What [FindParams] makes of the value of the limit or offset key: the
    default for [""], the value of a numeral that fits 32 bits, and [None]
    for every other string (the call returns an error). *)
Definition paramValue (s : string) (default : Z) : option Z :=
  if String.eqb s "" then Some default else uint32Value s.

(** The byte [c] occurs in [s]. *)
Fixpoint hasByte (c : ascii) (s : string) : bool :=
  match s with
  | EmptyString => false
  | String x rest => Ascii.eqb x c || hasByte c rest
  end.

(** Stripping a prefix, as Go's [strings.TrimPrefix] does: [s] without the
    leading [prefix], or [s] itself when it does not start with [prefix]. *)
Fixpoint dropPrefix (s prefix : string) {struct prefix} : option string :=
  match prefix, s with
  | EmptyString, _ => Some s
  | String c prefix', String x s' =>
      if Ascii.eqb x c then dropPrefix s' prefix' else None
  | String _ _, EmptyString => None
  end.

Definition TrimPrefix (s prefix : string) : string :=
  match dropPrefix s prefix with
  | Some rest => rest
  | None => s
  end.

(** The sort rule in the words of the specification: a token contributes the
    pair of its two parts when splitting it on periods gives exactly two
    parts, and nothing otherwise; the tokens are the comma-separated parts
    of the parameter, taken in order. *)
Definition sortOfToken (token : string) : option Sort :=
  match Split token "." with
  | [field; direction] => Some {| Field := field; Order := direction |}
  | _ => None
  end.

Definition sortsOfParam (sort : string) : list Sort :=
  omap sortOfToken (Split sort ",").

(** The tokens of the two renderers. *)
Definition sortToken (s : Sort) : string := Field s +:+ "." +:+ Order s.
Definition orderToken (s : Sort) : string := Field s +:+ " " +:+ Order s.

(** The suffix every link carries: nothing without sorts, else [&sort=...]. *)
Definition sortSuffix (sorts : list Sort) : string :=
  match sorts with
  | [] => ""
  | _ => "&sort=" +:+ Join (map sortToken sorts) ","
  end.

(** A link to the page at [offset], [offset] given as rendered. *)
Definition pageLink (baseURL : string) (params : Params) (offset : string) : string :=
  baseURL +:+ "?page[limit]=" +:+ FormatUint (Limit params) +:+
  "&page[offset]=" +:+ offset +:+ sortSuffix (Sort' params).

(** The request supplies [v] for [key]: the key is absent and [v] is the
    default, or the first value of the key is a numeral below [2 ^ 32] that
    denotes [v]. *)
Definition supplies (q : gmap string (list string)) (key : string)
    (default v : Z) : Prop :=
  (q !! key = None /\ v = default) \/
  (exists s rest, q !! key = Some (s :: rest) /\
                  decimalValue s = Some v /\ v < 2 ^ 32).

(** [s] is refused as a limit or an offset: it is not empty and is no
    numeral below [2 ^ 32]. *)
Definition rejected (s : string) : Prop := s <> "" /\ uint32Value s = None.

(** The key is present and its value is no non-negative integer. *)
Definition unparseable (q : gmap string (list string)) (key : string) : Prop :=
  exists s rest, q !! key = Some (s :: rest) /\ decimalValue s = None.

(** A sort whose field and direction have no comma and no period. *)
Definition plainSort (s : Sort) : Prop :=
  hasByte "," (Field s) = false /\ hasByte "." (Field s) = false /\
  hasByte "," (Order s) = false /\ hasByte "." (Order s) = false.

(** Requests used as examples: [?page[limit]=4294967296&page[offset]=0],
    [?page[limit]=4294967296], [?page[limit]=] and [?sort=.asc,name.,.]. *)
Definition largeLimitQuery : gmap string (list string) :=
  {[ "page[limit]" := ["4294967296"]; "page[offset]" := ["0"] ]}.

Definition overLimitQuery : gmap string (list string) :=
  {[ "page[limit]" := ["4294967296"] ]}.

Definition emptyLimitQuery : gmap string (list string) :=
  {[ "page[limit]" := [""] ]}.


(** The items of the package's tests. *)
Definition samples (n : nat) : list string := repeat "sample" n.


(** ** Strings *)

Lemma sapp_cons (c : ascii) (s t : string) : String c s +:+ t = String c (s +:+ t).
Proof. reflexivity. Qed.

Lemma sapp_nil_l (s : string) : "" +:+ s = s.
Proof. reflexivity. Qed.

Lemma sapp_nil_r (s : string) : s +:+ "" = s.
Proof. induction s as [|c s IH]; [reflexivity|]. by rewrite sapp_cons, IH. Qed.

Lemma sapp_assoc (s t u : string) : (s +:+ t) +:+ u = s +:+ t +:+ u.
Proof. induction s as [|c s IH]; [reflexivity|]. by rewrite !sapp_cons, IH. Qed.

Lemma sapp_eq_nil (s t : string) : s +:+ t = "" -> s = "" /\ t = "".
Proof. destruct s; [intros H; split; [done | exact H]|]. rewrite sapp_cons. discriminate. Qed.

(** The loops of the two renderers collect one token per sort, in order. *)
Lemma collect_map {A B} (f : A -> B) (l : list A) (acc : list B) :
  fold_left (fun tmp s => tmp ++ [f s]) l acc = acc ++ map f l.
Proof.
  revert acc. induction l as [|x l IH]; intros acc; simpl.
  - by rewrite List.app_nil_r.
  - rewrite IH. by rewrite <- List.app_assoc.
Qed.

Lemma Sprintf_sortToken (s : Sort) :
  Sprintf "%s.%s" [ArgString (Field s); ArgString (Order s)] = sortToken s.
Proof. unfold sortToken. cbn. by rewrite sapp_nil_r. Qed.

Lemma Sprintf_orderToken (s : Sort) :
  Sprintf "%s %s" [ArgString (Field s); ArgString (Order s)] = orderToken s.
Proof. unfold orderToken. cbn. by rewrite sapp_nil_r. Qed.

(** ** The renderers *)

Lemma SortURL_eq (p : Params) :
  SortURL p =
  match Sort' p with
  | [] => ""
  | _ => "sort=" +:+ Join (map sortToken (Sort' p)) ","
  end.
Proof.
  unfold SortURL. destruct (Sort' p) as [|s l] eqn:E; [reflexivity|].
  replace (0 <? Z.of_nat (length (s :: l))) with true
    by (symmetry; apply Z.ltb_lt; rewrite length_cons; lia).
  rewrite collect_map, (map_ext _ _ Sprintf_sortToken).
  reflexivity.
Qed.

Lemma SortURL_nil_iff (p : Params) : SortURL p = "" <-> Sort' p = [].
Proof.
  rewrite SortURL_eq. destruct (Sort' p); [done|].
  split; discriminate.
Qed.

Lemma amp_SortURL (p : Params) :
  (if negb (String.eqb (SortURL p) "")
   then Sprintf "&%s" [ArgString (SortURL p)] else "") = sortSuffix (Sort' p).
Proof.
  destruct (String.eqb_spec (SortURL p) "") as [E|E]; simpl.
  - apply SortURL_nil_iff in E. by rewrite E.
  - cbn. rewrite sapp_nil_r, SortURL_eq. unfold sortSuffix.
    destruct (Sort' p) eqn:E'; [by rewrite SortURL_eq, E' in E|]. reflexivity.
Qed.

Lemma Query_eq (a : Arch) (p : Params) :
  Query a p =
  " LIMIT " +:+ FormatUint (uadd a (Limit p) 1) +:+
  " OFFSET " +:+ FormatUint (Offset p) +:+ " " +:+
  match Sort' p with
  | [] => ""
  | _ => "ORDER BY " +:+ Join (map orderToken (Sort' p)) ","
  end.
Proof.
  unfold Query.
  assert (Sprintf " LIMIT %d OFFSET %d " [ArgUint (uadd a (Limit p) 1); ArgUint (Offset p)]
          = " LIMIT " +:+ FormatUint (uadd a (Limit p) 1) +:+
            " OFFSET " +:+ FormatUint (Offset p) +:+ " ") as ->.
  { cbn. by rewrite !sapp_cons, !sapp_nil_l. }
  destruct (Sort' p) as [|s l] eqn:E.
  - cbn. by rewrite !sapp_assoc, !sapp_nil_r.
  - replace (0 <? Z.of_nat (length (s :: l))) with true
      by (symmetry; apply Z.ltb_lt; rewrite length_cons; lia).
    rewrite collect_map, (map_ext _ _ Sprintf_orderToken).
    by rewrite !sapp_assoc.
Qed.

(** ** The page builder *)

Lemma Sprintf_link (baseURL : string) (limit : Z) (offset : fmtArg) :
  Sprintf "%s?%s=%d&%s=%d"
    [ArgString baseURL; ArgString ParamPageLimit; ArgUint limit;
     ArgString ParamPageOffset; offset] =
  baseURL +:+ "?page[limit]=" +:+ FormatUint limit +:+
  "&page[offset]=" +:+ fmtVerb "d" offset.
Proof.
  cbn. unfold ParamPageLimit, ParamPageOffset.
  by rewrite !sapp_cons, !sapp_nil_l, !sapp_nil_r.
Qed.

Lemma sortSuffix_link (p : Params) (link : string) :
  (if negb (String.eqb (SortURL p) "")
   then link +:+ Sprintf "&%s" [ArgString (SortURL p)] else link) =
  link +:+ sortSuffix (Sort' p).
Proof.
  rewrite <- amp_SortURL. destruct (negb _); [done|]. by rewrite sapp_nil_r.
Qed.

(** The three links [buildLinks] computes, field by field. *)
Lemma buildLinks_eq (a : Arch) (baseURL : string) (params : Params) (dataSize : Z) :
  buildLinks a baseURL params dataSize =
  {| First := pageLink baseURL params "0";
     Prev := if 0 <? Offset params
             then pageLink baseURL params
                    (FormatUint (usub a (Offset params) (Limit params)))
             else "";
     Next := if Limit params <? wrap a dataSize
             then pageLink baseURL params
                    (FormatUint (uadd a (Offset params) (Limit params)))
             else "";
     Last := "" |}.
Proof.
  unfold buildLinks, pageLink.
  rewrite !Sprintf_link.
  pose proof (amp_SortURL params) as Hs.
  destruct (negb (String.eqb (SortURL params) ""));
    destruct (Limit params <? wrap a dataSize), (0 <? Offset params);
    unfold setFirst, setNext, setPrev; cbn [First Prev Next Last fmtVerb];
    rewrite <- Hs, ?sapp_assoc, ?sapp_nil_r; reflexivity.
Qed.

Lemma pow_uintBits_pos (a : Arch) : 0 < 2 ^ uintBits a.
Proof. by destruct a. Qed.

Lemma wrap_uint (a : Arch) (x : Z) : is_uint a x -> wrap a x = x.
Proof. intros H. apply Z.mod_small. exact H. Qed.

Lemma wrap_is_uint (a : Arch) (x : Z) : is_uint a (wrap a x).
Proof. apply Z.mod_pos_bound, pow_uintBits_pos. Qed.

Lemma wrap_len (a : Arch) (n : nat) : is_len a n -> wrap a (Z.of_nat n) = Z.of_nat n.
Proof.
  intros H. apply wrap_uint. unfold is_len in H. split; [lia|].
  eapply Z.lt_trans; [exact H|]. by destruct a.
Qed.

(** Unsigned sums and differences that stay in range are exact; a difference
    below zero comes out [2 ^ uintBits a] higher. *)
Lemma uadd_exact (a : Arch) (x y : Z) :
  0 <= x + y < 2 ^ uintBits a -> uadd a x y = x + y.
Proof. apply Z.mod_small. Qed.

Lemma usub_exact (a : Arch) (x y : Z) :
  0 <= x - y < 2 ^ uintBits a -> usub a x y = x - y.
Proof. apply Z.mod_small. Qed.

Lemma usub_underflow (a : Arch) (x y : Z) :
  is_uint a x -> is_uint a y -> x < y -> usub a x y = 2 ^ uintBits a + x - y.
Proof.
  unfold is_uint, usub, wrap. intros Hx Hy Hlt.
  symmetry. apply (Z.mod_unique_pos _ _ (-1)); lia.
Qed.

Lemma FormatUint_inj (x y : Z) : 0 <= x -> 0 <= y -> FormatUint x = FormatUint y -> x = y.
Proof.
  unfold FormatUint. intros Hx Hy H.
  apply (f_equal NilEmpty.uint_of_string) in H. rewrite !NilEmpty.usu in H.
  injection H as H. apply DecimalN.Unsigned.to_uint_inj in H. lia.
Qed.

Lemma pageLink_nonempty (baseURL : string) (params : Params) (offset : string) :
  pageLink baseURL params offset <> "".
Proof.
  unfold pageLink. intros H. apply sapp_eq_nil in H as [_ H]. discriminate H.
Qed.

(** [data[:len(data)-1]] drops the last item, and is in bounds exactly for a
    slice that has one. *)
Lemma sliceTo_init {A} (data : list A) :
  sliceTo data (Z.of_nat (length data) - 1) =
  if 0 <? Z.of_nat (length data) then Some (removelast data) else None.
Proof.
  unfold sliceTo. destruct (Z.ltb_spec 0 (Z.of_nat (length data))) as [H|H].
  - replace ((0 <=? _) && _) with true
      by (symmetry; apply andb_true_iff; split; apply Z.leb_le; lia).
    rewrite removelast_firstn_len. do 2 f_equal. lia.
  - replace (0 <=? Z.of_nat (length data) - 1) with false
      by (symmetry; apply Z.leb_gt; lia).
    reflexivity.
Qed.

Lemma buildData_eq {A} (a : Arch) (data : list A) (params : Params) :
  is_uint a (Limit params) ->
  buildData a data params =
  Some (if Limit params <? wrap a (Z.of_nat (length data))
        then removelast data else data).
Proof.
  intros [Hl _]. unfold buildData.
  destruct (Z.ltb_spec (Limit params) (wrap a (Z.of_nat (length data)))) as [H|H];
    [|reflexivity].
  rewrite sliceTo_init.
  destruct (Z.ltb_spec 0 (Z.of_nat (length data))) as [H'|H']; [reflexivity|].
  exfalso. assert (length data = 0%nat) as E by lia.
  rewrite E in H. unfold wrap in H. rewrite Z.mod_0_l in H; [lia|].
  pose proof (pow_uintBits_pos a). lia.
Qed.

Lemma Paginate_eq {A} (a : Arch) (data : list A) (baseURL : string) (params : Params) :
  is_uint a (Limit params) ->
  Paginate a data baseURL params =
  Some {| Data := if Limit params <? wrap a (Z.of_nat (length data))
                  then removelast data else data;
          Links' := buildLinks a baseURL params (Z.of_nat (length data)) |}.
Proof. intros H. unfold Paginate. by rewrite buildData_eq. Qed.

(** ** [strconv.ParseUint] reads decimal numerals *)

Lemma isDigit_uint_of_char (c : ascii) (d : Decimal.uint) :
  isDigit c = true <-> is_Some (uint_of_char c (Some d)).
Proof.
  destruct c as [[] [] [] [] [] [] [] []]; vm_compute;
    split; intros H; try discriminate H; try (by eexists);
    destruct H as [? H]; discriminate H.
Qed.

Lemma isDigit_digitVal (c : ascii) : isDigit c = true -> 0 <= digitVal c <= 9.
Proof.
  unfold isDigit, digitVal. intros [H1 H2]%andb_true_iff.
  apply Z.leb_le in H1, H2. lia.
Qed.

Lemma uint_of_string_cons (c : ascii) (s : string) (d : Decimal.uint) :
  NilEmpty.uint_of_string (String c s) = Some d ->
  exists d0, NilEmpty.uint_of_string s = Some d0 /\ isDigit c = true /\
    forall acc, Z.of_N (Unsigned.of_lu (Decimal.revapp d acc)) =
                Z.of_N (Unsigned.of_lu (Decimal.revapp d0
                  match uint_of_char c (Some acc) with Some x => x | None => acc end))
                /\ match uint_of_char c (Some acc) with
                   | Some x => Z.of_N (Unsigned.of_lu x) =
                               10 * Z.of_N (Unsigned.of_lu acc) + digitVal c
                   | None => False
                   end.
Proof.
  simpl. destruct (NilEmpty.uint_of_string s) as [d0|]; [|discriminate].
  intros H. exists d0. split; [reflexivity|].
  split; [apply (isDigit_uint_of_char c d0); by eexists|].
  intros acc. apply uint_of_char_spec in H.
  destruct H as [[-> ->]|[[-> ->]|[[-> ->]|[[-> ->]|[[-> ->]|[[-> ->]|
                [[-> ->]|[[-> ->]|[[-> ->]|[-> ->]]]]]]]]]];
    (split; [reflexivity|]); cbn [uint_of_char];
    rewrite Unsigned.of_lu_eqn; cbn [Unsigned.hd Unsigned.tl]; unfold digitVal;
    vm_compute (Z.of_N (N_of_ascii _)); lia.
Qed.

Lemma readDigits_of_lu (s : string) (d acc : Decimal.uint) :
  NilEmpty.uint_of_string s = Some d ->
  readDigits s (Z.of_N (Unsigned.of_lu acc)) =
  Z.of_N (Unsigned.of_lu (Decimal.revapp d acc)).
Proof.
  revert d acc. induction s as [|c s IH]; intros d acc H.
  - injection H as <-. reflexivity.
  - apply uint_of_string_cons in H as (d0 & Hd0 & _ & Hacc).
    destruct (Hacc acc) as [E1 E2]. cbn [readDigits].
    destruct (uint_of_char c (Some acc)) as [x|]; [|done].
    rewrite E1, <- E2. by apply IH.
Qed.

Lemma decimalValue_readDigits (s : string) (v : Z) :
  decimalValue s = Some v <->
  s <> "" /\ is_Some (NilEmpty.uint_of_string s) /\ v = readDigits s 0.
Proof.
  unfold decimalValue. destruct (String.eqb_spec s "") as [->|Hs].
  - split; [discriminate|]. by intros [? _].
  - destruct (NilEmpty.uint_of_string s) as [d|] eqn:E; simpl.
    + pose proof (readDigits_of_lu s d Decimal.Nil E) as H. cbn in H.
      unfold N.of_uint. rewrite Unsigned.of_uint_alt. unfold Decimal.rev.
      rewrite <- H. split.
      * intros [= <-]. by eauto.
      * by intros (_ & _ & ->).
    + split; [discriminate|]. intros (_ & [? H] & _). discriminate H.
Qed.

Lemma readDigits_mono (s : string) (n : Z) :
  is_Some (NilEmpty.uint_of_string s) -> 0 <= n -> n <= readDigits s n.
Proof.
  revert n. induction s as [|c s IH]; intros n [d H] Hn; [simpl; lia|].
  apply uint_of_string_cons in H as (d0 & Hd0 & Hc & _).
  apply isDigit_digitVal in Hc. cbn [readDigits].
  etrans; [|apply IH; [by eexists | lia]]. lia.
Qed.

(** The digit loop returns the value of the digits, or reports that there is
    a byte that is no digit or that the value exceeds [maxVal]. *)
Lemma parseDigits_spec (maxVal : Z) (s : string) (n : Z) :
  0 <= n <= maxVal -> maxVal <= maxUint64 ->
  match parseDigits maxVal s n with
  | (v, None) =>
      is_Some (NilEmpty.uint_of_string s) /\ v = readDigits s n /\ v <= maxVal
  | (_, Some _) =>
      NilEmpty.uint_of_string s = None \/ maxVal < readDigits s n
  end.
Proof.
  unfold maxUint64. revert n. induction s as [|c s IH]; intros n Hn Hmax.
  - simpl. split; [by eexists|]. lia.
  - cbn [parseDigits readDigits].
    destruct (isDigit c) eqn:Hc.
    + pose proof (isDigit_digitVal c Hc) as Hd.
      assert (NilEmpty.uint_of_string (String c s) = None \/
              (is_Some (NilEmpty.uint_of_string (String c s)) /\
               is_Some (NilEmpty.uint_of_string s))) as Hs.
      { simpl. destruct (NilEmpty.uint_of_string s) as [d0|]; [|by left].
        right. split; [|by eexists].
        by apply (isDigit_uint_of_char c d0). }
      cbv zeta. change (maxUint64 / 10 + 1) with 1844674407370955162.
      change (2 ^ 64) with 18446744073709551616 in *.
      destruct (Z.leb_spec 1844674407370955162 n) as [Hcut|Hcut].
      { destruct Hs as [Hs|[_ Hs]]; [by left|right].
        pose proof (readDigits_mono s (10 * n + digitVal c) Hs). lia. }
      rewrite (Z.mod_small (n * 10)) by lia.
      destruct (Z.ltb_spec (n * 10 + digitVal c) 18446744073709551616) as [Hfit|Hfit].
      * rewrite (Z.mod_small (n * 10 + digitVal c)) by lia.
        replace (n * 10 + digitVal c <? n * 10) with false
          by (symmetry; apply Z.ltb_ge; lia).
        rewrite orb_false_l.
        destruct (Z.ltb_spec maxVal (n * 10 + digitVal c)) as [Hbig|Hbig].
        { destruct Hs as [Hs|[_ Hs]]; [by left|right].
          pose proof (readDigits_mono s (10 * n + digitVal c) Hs). lia. }
        replace (10 * n + digitVal c) with (n * 10 + digitVal c) by lia.
        specialize (IH (n * 10 + digitVal c)).
        destruct (parseDigits maxVal s (n * 10 + digitVal c)) as [v [e|]].
        -- destruct IH as [IH|IH]; [lia|lia| |by right].
           left. simpl. by rewrite IH.
        -- destruct IH as (Hsome & -> & Hle); [lia|lia|].
           split; [|done].
           destruct Hs as [Hs|[Hs _]]; [|done].
           simpl in Hs. destruct Hsome as [d0 Hd0]. rewrite Hd0 in Hs.
           destruct (proj1 (isDigit_uint_of_char c d0) Hc) as [x Hx]. congruence.
      * replace ((n * 10 + digitVal c) mod 18446744073709551616)
          with (n * 10 + digitVal c - 18446744073709551616)
          by (apply (Z.mod_unique_pos _ _ 1); lia).
        replace (_ <? n * 10) with true by (symmetry; apply Z.ltb_lt; lia).
        rewrite orb_true_l.
        destruct Hs as [Hs|[_ Hs]]; [by left|right].
        pose proof (readDigits_mono s (10 * n + digitVal c) Hs). lia.
    + left. simpl. destruct (NilEmpty.uint_of_string s) as [d0|]; [|done].
      destruct (uint_of_char c (Some d0)) eqn:E; [|done].
      assert (isDigit c = true) by (apply (isDigit_uint_of_char c d0); by eexists).
      congruence.
Qed.

Lemma ParseUint32_spec (s : string) :
  match ParseUint s 32 with
  | (v, None) => uint32Value s = Some v
  | (_, Some _) => uint32Value s = None
  end.
Proof.
  unfold ParseUint, uint32Value.
  destruct (String.eqb_spec s "") as [->|Hs]; [reflexivity|].
  pose proof (parseDigits_spec (2 ^ 32 - 1) s 0) as H.
  destruct (parseDigits (2 ^ 32 - 1) s 0) as [v [e|]].
  - destruct H as [H|H]; [done|done| |].
    + destruct (decimalValue s) as [w|] eqn:E; [|done].
      apply decimalValue_readDigits in E as (_ & [d Hd] & _). congruence.
    + destruct (decimalValue s) as [w|] eqn:E; [|done].
      apply decimalValue_readDigits in E as (_ & _ & ->).
      destruct (Z.ltb_spec (readDigits s 0) (2 ^ 32)); [lia|done].
  - destruct H as (Hsome & -> & Hle); [done|done|].
    assert (decimalValue s = Some (readDigits s 0)) as ->
      by (by apply decimalValue_readDigits).
    destruct (Z.ltb_spec (readDigits s 0) (2 ^ 32)); [done|lia].
Qed.

Lemma uint32Value_range (s : string) (v : Z) :
  uint32Value s = Some v -> 0 <= v < 2 ^ 32.
Proof.
  unfold uint32Value. destruct (decimalValue s) as [w|] eqn:E; [|done].
  destruct (Z.ltb_spec w (2 ^ 32)); [|done]. intros [= <-]. split; [|done].
  unfold decimalValue in E. destruct (String.eqb s ""); [done|].
  destruct (NilEmpty.uint_of_string s); [|done]. injection E as <-. lia.
Qed.

(** ** [strings.Split] and [strings.Join] *)

Lemma Split_nonnil (s : string) (c : ascii) : Split s c <> [].
Proof.
  destruct s as [|x s]; simpl; [done|].
  destruct (Ascii.eqb x c); [done|]. by destruct (Split s c).
Qed.

Lemma Join_cons (e : string) (l : list string) (sep : string) :
  l <> [] -> Join (e :: l) sep = e +:+ sep +:+ Join l sep.
Proof. by destruct l. Qed.

(** Joining the parts with the separator gives the string back. *)
Lemma Join_Split (s : string) (c : ascii) : Join (Split s c) (String c "") = s.
Proof.
  induction s as [|x s IH]; [reflexivity|]. cbn [Split].
  destruct (Ascii.eqb_spec x c) as [->|Hx].
  - rewrite Join_cons by apply Split_nonnil. by rewrite IH.
  - pose proof (Split_nonnil s c) as Hne.
    destruct (Split s c) as [|t ts]; [done|].
    destruct ts as [|t' ts].
    + simpl in *. by rewrite IH.
    + rewrite Join_cons in * by done. by rewrite sapp_cons, IH.
Qed.

(** No part contains the separator. *)
Lemma Split_hasByte (s : string) (c : ascii) :
  Forall (fun t => hasByte c t = false) (Split s c).
Proof.
  induction s as [|x s IH]; cbn [Split]; [by constructor|].
  destruct (Ascii.eqb_spec x c) as [->|Hx]; [by constructor|].
  destruct (Split s c) as [|t ts]; [constructor; [|done]|].
  - simpl. by rewrite (proj2 (Ascii.eqb_neq x c) Hx).
  - inversion IH as [|? ? Ht Hts]; subst. constructor; [|done].
    simpl. by rewrite (proj2 (Ascii.eqb_neq x c) Hx), Ht.
Qed.

Lemma Split_app_sep (s t : string) (c : ascii) :
  hasByte c s = false -> Split (s +:+ String c t) c = s :: Split t c.
Proof.
  induction s as [|x s IH]; intros H.
  - rewrite sapp_nil_l. cbn [Split]. by rewrite Ascii.eqb_refl.
  - simpl in H. apply orb_false_iff in H as [Hx Hs].
    rewrite sapp_cons. cbn [Split]. by rewrite Hx, IH.
Qed.

Lemma Split_no_sep (s : string) (c : ascii) :
  hasByte c s = false -> Split s c = [s].
Proof.
  induction s as [|x s IH]; intros H; [reflexivity|].
  simpl in H. apply orb_false_iff in H as [Hx Hs].
  cbn [Split]. by rewrite Hx, IH.
Qed.

(** Splitting a joined list of parts without the separator gives the parts. *)
Lemma Split_Join (l : list string) (c : ascii) :
  l <> [] -> Forall (fun t => hasByte c t = false) l ->
  Split (Join l (String c "")) c = l.
Proof.
  induction l as [|t l IH]; intros Hne Hl; [done|].
  inversion Hl as [|? ? Ht Hl']; subst.
  destruct l as [|t' l].
  - simpl. by apply Split_no_sep.
  - rewrite Join_cons by done. rewrite sapp_cons, sapp_nil_l.
    rewrite Split_app_sep by done. by rewrite IH.
Qed.

(** ** The sort rule *)

(** A token is accepted exactly when it is a field and a direction, both
    free of periods, around one period. *)
Lemma sortOfToken_Some (token : string) (s : Sort) :
  sortOfToken token = Some s <->
  token = Field s +:+ "." +:+ Order s /\
  hasByte "." (Field s) = false /\ hasByte "." (Order s) = false.
Proof.
  unfold sortOfToken. split.
  - pose proof (Join_Split token ".") as HJ.
    pose proof (Split_hasByte token ".") as HF.
    destruct (Split token ".") as [|f [|d [|? ?]]]; try discriminate.
    intros [= <-]. simpl in *.
    inversion HF as [|? ? Hf HF']; subst. inversion HF' as [|? ? Hd _]; subst.
    done.
  - intros (-> & Hf & Hd).
    change ("." +:+ Order s) with (String "." (Order s)).
    rewrite Split_app_sep, Split_no_sep by done. by destruct s.
Qed.

Lemma len_eq_2 {A} (v : list A) :
  (Z.of_nat (length v) =? 2) = match v with [_; _] => true | _ => false end.
Proof.
  destruct v as [|? [|? [|? v]]]; try reflexivity.
  apply Z.eqb_neq. rewrite !length_cons. lia.
Qed.

(** The loop over the tokens appends the accepted ones, in order. *)
Lemma sort_loop (tokens : list string) (params : Params) :
  fold_left
    (fun params field =>
       let v := Split field "." in
       if (Z.of_nat (length v) =? 2) then
         {| Limit := Limit params;
            Offset := Offset params;
            Sort' := Sort' params ++
                     [{| Field := nth 0 v ""; Order := nth 1 v "" |}] |}
       else params)
    tokens params =
  {| Limit := Limit params; Offset := Offset params;
     Sort' := Sort' params ++ omap sortOfToken tokens |}.
Proof.
  revert params. induction tokens as [|t tokens IH]; intros params.
  - simpl. rewrite List.app_nil_r. by destruct params.
  - cbn [fold_left omap list_omap]. rewrite IH. unfold sortOfToken. cbv zeta.
    rewrite len_eq_2.
    destruct (Split t ".") as [|f [|d [|? ?]]]; simpl; try done.
    by rewrite <- List.app_assoc.
Qed.

Lemma sortsOfParam_empty : sortsOfParam "" = [].
Proof. reflexivity. Qed.


(** ** The parameter extractor *)

Lemma wrap_uint32 (a : Arch) (s : string) (v : Z) :
  uint32Value s = Some v -> wrap a v = v.
Proof.
  intros H%uint32Value_range. apply wrap_uint. unfold is_uint.
  split; [lia|]. eapply Z.lt_le_trans; [apply H|]. by destruct a.
Qed.

Lemma FindParams_cases (a : Arch) (q : gmap string (list string)) (dO dL : Z) :
  match paramValue (Get q ParamPageLimit) dL with
  | None =>
      (FindParams a q dO dL).1 = {| Limit := dL; Offset := dO; Sort' := [] |} /\
      (FindParams a q dO dL).2 <> None
  | Some l =>
      match paramValue (Get q ParamPageOffset) dO with
      | None =>
          (FindParams a q dO dL).1 = {| Limit := l; Offset := dO; Sort' := [] |} /\
          (FindParams a q dO dL).2 <> None
      | Some o =>
          FindParams a q dO dL =
          ({| Limit := l; Offset := o; Sort' := sortsOfParam (Get q ParamSortBy) |},
           None)
      end
  end.
Proof.
  unfold FindParams, paramValue.
  set (limit := Get q ParamPageLimit). set (offset := Get q ParamPageOffset).
  set (sort := Get q ParamSortBy).
  assert (forall p : Params,
    (if negb (String.eqb sort "") then
       Fallthrough (R := Params * option error)
         (fold_left
            (fun params field =>
               let v := Split field "." in
               if (Z.of_nat (length v) =? 2) then
                 {| Limit := Limit params; Offset := Offset params;
                    Sort' := Sort' params ++
                             [{| Field := nth 0 v ""; Order := nth 1 v "" |}] |}
               else params)
            (Split sort ",") p)
     else Fallthrough p) =
    Fallthrough {| Limit := Limit p; Offset := Offset p;
                   Sort' := Sort' p ++ sortsOfParam sort |}) as Hsort.
  { intros p. destruct (String.eqb_spec sort "") as [->|_]; simpl negb; cbv iota.
    - rewrite sortsOfParam_empty, List.app_nil_r. by destruct p.
    - by rewrite sort_loop. }
  destruct (String.eqb_spec limit "") as [El|El]; simpl negb; cbv iota.
  - destruct (String.eqb_spec offset "") as [Eo|Eo]; simpl negb; cbv iota.
    + cbn [andThen]. rewrite Hsort. reflexivity.
    + pose proof (ParseUint32_spec offset) as Ho.
      destruct (ParseUint offset 32) as [v [e|]]; rewrite Ho.
      * done.
      * cbn [andThen]. rewrite Hsort. cbn. by rewrite (wrap_uint32 a offset).
  - pose proof (ParseUint32_spec limit) as Hl.
    destruct (ParseUint limit 32) as [v [e|]]; rewrite Hl; [done|].
    cbn [andThen Limit Offset Sort'].
    destruct (String.eqb_spec offset "") as [Eo|Eo]; simpl negb; cbv iota.
    + cbn [andThen]. rewrite Hsort. cbn. by rewrite (wrap_uint32 a limit).
    + pose proof (ParseUint32_spec offset) as Ho.
      destruct (ParseUint offset 32) as [w [e|]]; rewrite Ho.
      * cbn. by rewrite (wrap_uint32 a limit).
      * cbn [andThen]. rewrite Hsort. cbn.
        by rewrite (wrap_uint32 a limit), (wrap_uint32 a offset).
Qed.

(** * Properties of the page builder *)



(** C4 (previous link).  The previous link is present exactly when
    [Offset > 0]; its offset is then [Offset - Limit] in [uint] arithmetic,
    with no clamping: for [0 < Offset < Limit] the difference wraps around to
    [2 ^ uintBits + Offset - Limit], which is not rendered as [0]. *)
Theorem Paginate_prev {A} (a : Arch) (data : list A) (baseURL : string)
    (params : Params) :
  is_uint a (Limit params) -> is_uint a (Offset params) ->
  exists r, Paginate a data baseURL params = Some r /\
    (Prev (Links' r) <> "" <-> 0 < Offset params) /\
    (0 < Offset params ->
     Prev (Links' r) =
       pageLink baseURL params
         (FormatUint (usub a (Offset params) (Limit params)))) /\
    (0 < Offset params < Limit params ->
     usub a (Offset params) (Limit params) =
       2 ^ uintBits a + Offset params - Limit params /\
     FormatUint (usub a (Offset params) (Limit params)) <> FormatUint 0).
Proof.
  intros Hl Ho. rewrite Paginate_eq by done. eexists; split; [reflexivity|].
  rewrite buildLinks_eq. cbn [Links' Prev].
  destruct (Z.ltb_spec 0 (Offset params)) as [H|H].
  - split; [split; [done|intros _; apply pageLink_nonempty]|].
    split; [done|]. intros [_ Hlt].
    rewrite usub_underflow by done. split; [reflexivity|].
    unfold is_uint in *. intros E%FormatUint_inj; lia.
  - split; [split; [done|lia]|]. split; intros; lia.
Qed.

Lemma Paginate_prev_witness :
  exists r, Paginate Arch64 ["a"; "b"] "/sample"
              {| Limit := 5; Offset := 3; Sort' := [] |} = Some r /\
    Prev (Links' r) = "/sample?page[limit]=5&page[offset]=18446744073709551614".
Proof.
  destruct (Paginate_prev Arch64 ["a"; "b"] "/sample"
              {| Limit := 5; Offset := 3; Sort' := [] |})
    as (r & Hr & _ & H & _).
  - unfold is_uint. simpl. lia.
  - unfold is_uint. simpl. lia.
  - exists r. split; [exact Hr|]. rewrite H by (simpl; lia). reflexivity.
Defined.

(** C8 (first and last link).  The first link is always present: the base
    path, [?page[limit]=] with the limit, [&page[offset]=0], and then [&]
    with the sort URL exactly when there are sorts.  The last link is never
    present. *)
Theorem Paginate_first_last {A} (a : Arch) (data : list A) (baseURL : string)
    (params : Params) :
  is_uint a (Limit params) ->
  exists r, Paginate a data baseURL params = Some r /\
    First (Links' r) <> "" /\
    First (Links' r) =
      baseURL +:+ "?page[limit]=" +:+ FormatUint (Limit params) +:+
      "&page[offset]=0" +:+
      match Sort' params with
      | [] => ""
      | _ :: _ => "&" +:+ SortURL params
      end /\
    Last (Links' r) = "".
Proof.
  intros Hl. rewrite Paginate_eq by done. eexists; split; [reflexivity|].
  rewrite buildLinks_eq. cbn [Links' First Last].
  split; [apply pageLink_nonempty|]. split; [|reflexivity].
  unfold pageLink, sortSuffix. rewrite SortURL_eq.
  by destruct (Sort' params).
Qed.

Lemma Paginate_first_last_witness :
  exists r, Paginate Arch64 ["a"; "b"] "/sample"
              {| Limit := 5; Offset := 10;
                 Sort' := [{| Field := "first_name"; Order := "asc" |}] |} = Some r /\
    First (Links' r) = "/sample?page[limit]=5&page[offset]=0&sort=first_name.asc" /\
    Last (Links' r) = "".
Proof.
  destruct (Paginate_first_last Arch64 ["a"; "b"] "/sample"
              {| Limit := 5; Offset := 10;
                 Sort' := [{| Field := "first_name"; Order := "asc" |}] |})
    as (r & Hr & _ & H1 & H2).
  - unfold is_uint. simpl. lia.
  - exists r. split; [exact Hr|]. split; [|exact H2]. rewrite H1. reflexivity.
Defined.

(** C9 (totality).  [Paginate] returns a response for every input whose
    limit is a [uint]: the slice expression of [buildData] is always in
    bounds.  This covers the empty slice, a zero limit, a limit below the
    number of items and the empty base path. *)
Theorem Paginate_total {A} (a : Arch) (data : list A) (baseURL : string)
    (params : Params) :
  is_uint a (Limit params) ->
  is_Some (buildData a data params) /\
  is_Some (Paginate a data baseURL params) /\
  is_Some (Paginate a (@nil A) "" {| Limit := 0; Offset := 0; Sort' := [] |}).
Proof.
  intros Hl. rewrite buildData_eq, Paginate_eq by done.
  rewrite Paginate_eq by (unfold is_uint; cbn; pose proof (pow_uintBits_pos a); lia).
  by eauto.
Qed.

Lemma Paginate_total_witness :
  is_Some (Paginate Arch64 ["a"; "b"; "c"] "" {| Limit := 0; Offset := 0; Sort' := [] |}).
Proof.
  apply (Paginate_total Arch64 ["a"; "b"; "c"] ""
           {| Limit := 0; Offset := 0; Sort' := [] |}).
  unfold is_uint. simpl. lia.
Defined.

(** * Properties of the renderers *)


(** * Properties of the parameter extractor *)

(** C3, as stated, fails: [4294967296] is a well-formed non-negative integer,
    and [FindParams] answers [?page[limit]=4294967296&page[offset]=0] with a
    range error and the default limit. *)
Lemma FindParams_large_limit :
  decimalValue "4294967296" = Some 4294967296 /\
  decimalValue "0" = Some 0 /\
  FindParams Arch64 largeLimitQuery 0 10 =
    ({| Limit := 10; Offset := 0; Sort' := [] |}, Some ErrRange).
Proof. vm_compute. done. Qed.

Lemma Get_absent (q : gmap string (list string)) (key : string) :
  q !! key = None -> Get q key = "".
Proof. unfold Get. by intros ->. Qed.

Lemma Get_first (q : gmap string (list string)) (key s : string) (rest : list string) :
  q !! key = Some (s :: rest) -> Get q key = s.
Proof. unfold Get. by intros ->. Qed.

Lemma decimalValue_nonempty (s : string) (v : Z) : decimalValue s = Some v -> s <> "".
Proof. by intros H ->. Qed.

Lemma supplies_paramValue (q : gmap string (list string)) (key : string) (default v : Z) :
  supplies q key default v -> paramValue (Get q key) default = Some v.
Proof.
  unfold paramValue. intros [[H ->]|(s & rest & H & Hv & Hlt)].
  - by rewrite (Get_absent _ _ H).
  - rewrite (Get_first _ _ _ _ H).
    destruct (String.eqb_spec s "") as [->|_]; [done|].
    unfold uint32Value. rewrite Hv.
    by destruct (Z.ltb_spec v (2 ^ 32)); [|lia].
Qed.

Lemma paramValue_None (s : string) (default : Z) :
  paramValue s default = None <-> rejected s.
Proof.
  unfold paramValue, rejected. destruct (String.eqb_spec s "") as [->|H].
  - split; [done|]. by intros [? _].
  - split; [done|]. by intros [_ ?].
Qed.

(** C3, amended.  When the request has, for the limit and for the offset,
    either no parameter or a numeral below [2 ^ 32], [FindParams] succeeds
    and the limit and the offset of the parameters are exactly the number
    the numeral denotes, or the caller's default when the parameter is
    absent.  Moreover an absent limit (offset) leaves the default limit
    (offset) in the parameters [FindParams] returns, error or not. *)
Theorem FindParams_limit_offset (a : Arch) (q : gmap string (list string))
    (dO dL : Z) :
  (forall l o,
     supplies q ParamPageLimit dL l -> supplies q ParamPageOffset dO o ->
     exists sorts,
       FindParams a q dO dL =
       ({| Limit := l; Offset := o; Sort' := sorts |}, None)) /\
  (q !! ParamPageLimit = None -> Limit (FindParams a q dO dL).1 = dL) /\
  (q !! ParamPageOffset = None -> Offset (FindParams a q dO dL).1 = dO).
Proof.
  pose proof (FindParams_cases a q dO dL) as H.
  split; [|split].
  - intros l o Hl%supplies_paramValue Ho%supplies_paramValue.
    rewrite Hl, Ho in H. by eexists.
  - intros Hl%Get_absent. rewrite Hl in H. cbn in H.
    destruct (paramValue (Get q ParamPageOffset) dO).
    + by rewrite H.
    + destruct H as [-> _]. done.
  - intros Ho%Get_absent. rewrite Ho in H.
    destruct (paramValue (Get q ParamPageLimit) dL); cbn in H.
    + by rewrite H.
    + destruct H as [-> _]. done.
Qed.

Lemma FindParams_limit_offset_witness :
  exists sorts,
    FindParams Arch64
      {[ "page[limit]" := ["5"]; "page[offset]" := ["10"] ]} 2 4 =
    ({| Limit := 5; Offset := 10; Sort' := sorts |}, None).
Proof.
  apply (FindParams_limit_offset Arch64
           {[ "page[limit]" := ["5"]; "page[offset]" := ["10"] ]} 2 4).
  - right. exists "5", []. repeat split; vm_compute; reflexivity.
  - right. exists "10", []. repeat split; vm_compute; reflexivity.
Defined.

(** C7, as stated, fails in both directions.  [?page[limit]=4294967296] has
    a limit that is a non-negative integer, and [FindParams] returns an
    error; [?page[limit]=] has a limit that is present and is no integer,
    and [FindParams] returns no error. *)
Lemma FindParams_error_not_iff :
  ((FindParams Arch64 overLimitQuery 0 10).2 <> None /\
   ~ (unparseable overLimitQuery ParamPageLimit \/
      unparseable overLimitQuery ParamPageOffset)) /\
  ((FindParams Arch64 emptyLimitQuery 0 10).2 = None /\
   unparseable emptyLimitQuery ParamPageLimit).
Proof.
  split; split.
  - vm_compute. discriminate.
  - intros [(s & rest & H & Hs)|(s & rest & H & Hs)].
    + vm_compute in H. injection H as <- <-. vm_compute in Hs. discriminate Hs.
    + vm_compute in H. discriminate H.
  - vm_compute. reflexivity.
  - exists "", []. split; vm_compute; reflexivity.
Qed.

(** C7, amended.  [FindParams] returns an error exactly when the value of the
    limit or of the offset is not empty and is no numeral below [2 ^ 32] (an
    absent key and an empty value count as not given).  With the error come
    the parameters as far as they were read: the defaults and no sorts when
    the limit is refused; the limit that was read (or its default), the
    default offset and no sorts when the offset is refused. *)
Theorem FindParams_error (a : Arch) (q : gmap string (list string)) (dO dL : Z) :
  ((FindParams a q dO dL).2 <> None <->
   rejected (Get q ParamPageLimit) \/ rejected (Get q ParamPageOffset)) /\
  (rejected (Get q ParamPageLimit) ->
   (FindParams a q dO dL).1 = {| Limit := dL; Offset := dO; Sort' := [] |}) /\
  (forall l,
     paramValue (Get q ParamPageLimit) dL = Some l ->
     rejected (Get q ParamPageOffset) ->
     (FindParams a q dO dL).1 = {| Limit := l; Offset := dO; Sort' := [] |}).
Proof.
  pose proof (FindParams_cases a q dO dL) as H.
  pose proof (paramValue_None (Get q ParamPageLimit) dL) as Hl.
  pose proof (paramValue_None (Get q ParamPageOffset) dO) as Ho.
  destruct (paramValue (Get q ParamPageLimit) dL) as [l|].
  - destruct (paramValue (Get q ParamPageOffset) dO) as [o|].
    + rewrite H. cbn. split; [split; [done|]|split].
      * intros [Hr|Hr]; [by apply Hl in Hr|by apply Ho in Hr].
      * intros Hr. by apply Hl in Hr.
      * intros ? _ Hr. by apply Ho in Hr.
    + destruct H as [H1 H2]. split; [split; [|done]|split].
      * intros _. right. by apply Ho.
      * intros Hr. by apply Hl in Hr.
      * by intros ? [= <-] _.
  - destruct H as [H1 H2]. split; [split; [|done]|split].
    + intros _. left. by apply Hl.
    + done.
    + done.
Qed.

Lemma FindParams_error_witness :
  (FindParams Arch64 {[ "page[limit]" := ["7"]; "page[offset]" := ["x"] ]} 2 4).1 =
  {| Limit := 7; Offset := 2; Sort' := [] |}.
Proof.
  apply (FindParams_error Arch64
           {[ "page[limit]" := ["7"]; "page[offset]" := ["x"] ]} 2 4).
  - vm_compute. reflexivity.
  - split; [vm_compute; discriminate | vm_compute; reflexivity].
Defined.


(** The error of [FindParams] is that of the first numeral [ParseUint]
    refuses, the limit before the offset. *)
Lemma FindParams_err (a : Arch) (q : gmap string (list string)) (dO dL : Z) :
  (FindParams a q dO dL).2 =
  let offsetErr :=
    if String.eqb (Get q ParamPageOffset) "" then None
    else (ParseUint (Get q ParamPageOffset) 32).2 in
  if String.eqb (Get q ParamPageLimit) "" then offsetErr
  else match (ParseUint (Get q ParamPageLimit) 32).2 with
       | Some err => Some err
       | None => offsetErr
       end.
Proof.
  unfold FindParams. cbv zeta.
  destruct (String.eqb (Get q ParamPageLimit) ""); simpl negb; cbv iota.
  - destruct (String.eqb (Get q ParamPageOffset) ""); simpl negb; cbv iota.
    + by destruct (negb (String.eqb (Get q ParamSortBy) "")).
    + destruct (ParseUint (Get q ParamPageOffset) 32) as [v [e|]]; [done|].
      by destruct (negb (String.eqb (Get q ParamSortBy) "")).
  - destruct (ParseUint (Get q ParamPageLimit) 32) as [v [e|]]; [done|].
    cbn [andThen snd].
    destruct (String.eqb (Get q ParamPageOffset) ""); simpl negb; cbv iota.
    + by destruct (negb (String.eqb (Get q ParamSortBy) "")).
    + destruct (ParseUint (Get q ParamPageOffset) 32) as [w [e|]]; [done|].
      by destruct (negb (String.eqb (Get q ParamSortBy) "")).
Qed.

(** The sorts of the result: those of the sort parameter when the call gets
    past the limit and the offset, none when it returns an error. *)
Lemma FindParams_Sort (a : Arch) (q : gmap string (list string)) (dO dL : Z) :
  Sort' (FindParams a q dO dL).1 =
  match (FindParams a q dO dL).2 with
  | None => sortsOfParam (Get q ParamSortBy)
  | Some _ => []
  end.
Proof.
  pose proof (FindParams_cases a q dO dL) as H.
  destruct (paramValue (Get q ParamPageLimit) dL) as [l|].
  - destruct (paramValue (Get q ParamPageOffset) dO) as [o|].
    + by rewrite H.
    + destruct H as [-> H]. by destruct (FindParams a q dO dL).2.
  - destruct H as [-> H]. by destruct (FindParams a q dO dL).2.
Qed.



Lemma hasByte_app (c : ascii) (s t : string) :
  hasByte c (s +:+ t) = hasByte c s || hasByte c t.
Proof.
  induction s as [|x s IH]; [reflexivity|].
  rewrite sapp_cons. simpl. by rewrite IH, orb_assoc.
Qed.

Lemma sortOfToken_sortToken (s : Sort) :
  plainSort s -> sortOfToken (sortToken s) = Some s.
Proof. intros (_ & Hf & _ & Ho). by apply sortOfToken_Some. Qed.

Lemma sortToken_no_comma (s : Sort) :
  plainSort s -> hasByte "," (sortToken s) = false.
Proof.
  intros (Hf & _ & Ho & _). unfold sortToken.
  rewrite !hasByte_app, Hf, Ho. reflexivity.
Qed.

(** Parsing the comma-joined tokens of plain sorts gives the sorts back. *)
Lemma sortsOfParam_Join (sorts : list Sort) :
  Forall plainSort sorts ->
  sortsOfParam (Join (map sortToken sorts) ",") = sorts.
Proof.
  intros H. destruct sorts as [|s0 sorts]; [reflexivity|].
  unfold sortsOfParam. rewrite Split_Join.
  - induction H as [|s l Hs Hl IH]; [reflexivity|].
    cbn [map omap list_omap]. rewrite sortOfToken_sortToken by done.
    by rewrite IH.
  - done.
  - induction H as [|s l Hs Hl IH]; constructor; [|done].
    by apply sortToken_no_comma.
Qed.

Lemma TrimPrefix_sort (s : string) : TrimPrefix ("sort=" +:+ s) "sort=" = s.
Proof. reflexivity. Qed.

(** C6 (round trip).  For sorts whose fields and directions have no comma and
    no period (empty ones included), a request whose sort parameter is the
    output of [SortURL] without its [sort=] prefix gets exactly these sorts
    from [FindParams], whenever the limit and the offset are accepted; and
    [SortURL] of no sorts is the empty string. *)
Theorem SortURL_roundtrip (a : Arch) (q : gmap string (list string))
    (dO dL : Z) (sorts : list Sort) (limit offset : Z) :
  Forall plainSort sorts ->
  Get q ParamSortBy =
    TrimPrefix (SortURL {| Limit := limit; Offset := offset; Sort' := sorts |})
               "sort=" ->
  (FindParams a q dO dL).2 = None ->
  Sort' (FindParams a q dO dL).1 = sorts /\
  SortURL {| Limit := limit; Offset := offset; Sort' := [] |} = "".
Proof.
  intros Hs Hq Herr. split; [|reflexivity].
  rewrite FindParams_Sort, Herr, Hq, SortURL_eq. cbn [Sort'].
  destruct sorts as [|s0 sorts]; [reflexivity|].
  rewrite TrimPrefix_sort. by apply sortsOfParam_Join.
Qed.

Lemma SortURL_roundtrip_witness :
  Sort' (FindParams Arch64
           {[ "sort" := ["first_name.asc,created_at.desc"] ]} 0 10).1 =
  [{| Field := "first_name"; Order := "asc" |};
   {| Field := "created_at"; Order := "desc" |}].
Proof.
  apply (SortURL_roundtrip Arch64
           {[ "sort" := ["first_name.asc,created_at.desc"] ]} 0 10
           [{| Field := "first_name"; Order := "asc" |};
            {| Field := "created_at"; Order := "desc" |}] 5 0).
  - repeat constructor.
  - vm_compute. reflexivity.
  - vm_compute. reflexivity.
Defined.


(** * The tests of the package, replayed on the model *)

Section Tests.
Variable a : Arch.

(** [TestFindOffSetAndLimitParams] *)
Example test_find_limit_offset :
  FindParams a {[ "page[limit]" := ["5"]; "page[offset]" := ["10"] ]} 2 4 =
    ({| Limit := 5; Offset := 10; Sort' := [] |}, None) /\
  FindParams a ∅ 2 4 = ({| Limit := 4; Offset := 2; Sort' := [] |}, None).
Proof. by destruct a. Qed.

(** [TestFindSortAndOrderParams] *)
Example test_find_sort :
  (FindParams a ∅ 0 0).1.(Sort') = [] /\
  (FindParams a {[ "sort" := ["asc(name)"] ]} 0 0).1.(Sort') = [] /\
  (FindParams a {[ "sort" := ["name.asc"] ]} 0 0).1.(Sort') =
    [{| Field := "name"; Order := "asc" |}] /\
  (FindParams a {[ "sort" := ["name.asc,second_name.desc"] ]} 0 0).1.(Sort') =
    [{| Field := "name"; Order := "asc" |};
     {| Field := "second_name"; Order := "desc" |}] /\
  (FindParams a {[ "sort" := ["name.asc,second_name.desc,asc(muz)"] ]} 0 0).1.(Sort') =
    [{| Field := "name"; Order := "asc" |};
     {| Field := "second_name"; Order := "desc" |}].
Proof. by destruct a. Qed.

(** [TestQueryBuilder] *)
Example test_query :
  Query a {| Limit := 0; Offset := 0; Sort' := [] |} = " LIMIT 1 OFFSET 0 " /\
  Query a {| Limit := 10; Offset := 20; Sort' := [] |} = " LIMIT 11 OFFSET 20 " /\
  Query a {| Limit := 10; Offset := 20;
             Sort' := [{| Field := "first_name"; Order := "asc" |}] |} =
    " LIMIT 11 OFFSET 20 ORDER BY first_name asc" /\
  Query a {| Limit := 2; Offset := 34;
             Sort' := [{| Field := "last_name"; Order := "asc" |};
                       {| Field := "created_at"; Order := "desc" |}] |} =
    " LIMIT 3 OFFSET 34 ORDER BY last_name asc,created_at desc".
Proof. by destruct a. Qed.

(** [TestSortURLMethod] *)
Example test_sort_url :
  SortURL {| Limit := 0; Offset := 0; Sort' := [] |} = "" /\
  SortURL {| Limit := 0; Offset := 0;
             Sort' := [{| Field := "first_name"; Order := "asc" |}] |} =
    "sort=first_name.asc" /\
  SortURL {| Limit := 0; Offset := 0;
             Sort' := [{| Field := "first_name"; Order := "asc" |};
                       {| Field := "created_at"; Order := "desc" |}] |} =
    "sort=first_name.asc,created_at.desc".
Proof. done. Qed.

(** [TestPaginatedResponseBuilder] *)
Example test_links :
  Links' <$> Paginate a (samples 6) "/sample" {| Limit := 5; Offset := 0; Sort' := [] |} =
    Some {| First := "/sample?page[limit]=5&page[offset]=0"; Prev := "";
            Next := "/sample?page[limit]=5&page[offset]=5"; Last := "" |} /\
  Links' <$> Paginate a (samples 6) "/sample" {| Limit := 5; Offset := 10; Sort' := [] |} =
    Some {| First := "/sample?page[limit]=5&page[offset]=0";
            Prev := "/sample?page[limit]=5&page[offset]=5";
            Next := "/sample?page[limit]=5&page[offset]=15"; Last := "" |} /\
  Links' <$> Paginate a (samples 1) "/sample" {| Limit := 5; Offset := 10; Sort' := [] |} =
    Some {| First := "/sample?page[limit]=5&page[offset]=0";
            Prev := "/sample?page[limit]=5&page[offset]=5";
            Next := ""; Last := "" |} /\
  Links' <$> Paginate a (samples 6) "/sample"
               {| Limit := 5; Offset := 10;
                  Sort' := [{| Field := "first_name"; Order := "asc" |};
                            {| Field := "created_at"; Order := "desc" |}] |} =
    Some {| First := "/sample?page[limit]=5&page[offset]=0&sort=first_name.asc,created_at.desc";
            Prev := "/sample?page[limit]=5&page[offset]=5&sort=first_name.asc,created_at.desc";
            Next := "/sample?page[limit]=5&page[offset]=15&sort=first_name.asc,created_at.desc";
            Last := "" |} /\
  Links' <$> Paginate a (samples 2) "/sample" {| Limit := 5; Offset := 0; Sort' := [] |} =
    Some {| First := "/sample?page[limit]=5&page[offset]=0"; Prev := "";
            Next := ""; Last := "" |} /\
  Links' <$> Paginate a (samples 5) "/sample" {| Limit := 5; Offset := 5; Sort' := [] |} =
    Some {| First := "/sample?page[limit]=5&page[offset]=0";
            Prev := "/sample?page[limit]=5&page[offset]=0";
            Next := ""; Last := "" |}.
Proof. by destruct a. Qed.

(** [TestPaginatedDataSize] *)
Example test_data_size :
  (length ∘ Data) <$> Paginate a (samples 3) "/sample" {| Limit := 2; Offset := 0; Sort' := [] |} =
    Some 2%nat /\
  (length ∘ Data) <$> Paginate a (samples 2) "/sample" {| Limit := 2; Offset := 0; Sort' := [] |} =
    Some 2%nat.
Proof. by destruct a. Qed.
End Tests.

(** The sums and differences of the links and of [Query] are those of
    [uint]: at the largest limit, [Limit + 1] is [0]. *)
Example Query_largest_limit :
  Query Arch64 {| Limit := 2 ^ 64 - 1; Offset := 0; Sort' := [] |} = " LIMIT 0 OFFSET 0 " /\
  Query Arch32 {| Limit := 2 ^ 32 - 1; Offset := 0; Sort' := [] |} = " LIMIT 0 OFFSET 0 ".
Proof. done. Qed.

(** * Further properties *)

(** ** Rendered numbers are read back *)

Lemma FormatUint_nonempty (n : Z) : FormatUint n <> "".
Proof.
  unfold FormatUint. destruct (Z.to_N n) as [|p]; [discriminate|].
  cbn [N.to_uint]. pose proof (Unsigned.to_uint_nonnil p) as H.
  by destruct (Pos.to_uint p).
Qed.

Lemma decimalValue_FormatUint (n : Z) : 0 <= n -> decimalValue (FormatUint n) = Some n.
Proof.
  intros Hn. unfold decimalValue.
  destruct (String.eqb_spec (FormatUint n) "") as [E|_];
    [by apply FormatUint_nonempty in E|].
  unfold FormatUint. rewrite NilEmpty.usu. cbn.
  rewrite DecimalN.Unsigned.of_to. f_equal. lia.
Qed.

Lemma uint32Value_FormatUint (n : Z) :
  0 <= n -> uint32Value (FormatUint n) = if n <? 2 ^ 32 then Some n else None.
Proof. intros Hn. unfold uint32Value. by rewrite decimalValue_FormatUint. Qed.

Lemma paramValue_FormatUint (n default : Z) :
  0 <= n -> paramValue (FormatUint n) default = if n <? 2 ^ 32 then Some n else None.
Proof.
  intros Hn. unfold paramValue.
  destruct (String.eqb_spec (FormatUint n) "") as [E|_];
    [by apply FormatUint_nonempty in E|].
  by apply uint32Value_FormatUint.
Qed.

(** X1 (the parameters of a link are read back).  A request that carries, as
    the links of [buildLinks] do, the rendered limit of [p], a rendered
    offset [o] and the sort URL of [p] without its [sort=] prefix is read
    by [FindParams] as the limit of [p], the offset [o] and the sorts of
    [p], without error and whatever the defaults are: as long as limit and
    offset are below [2 ^ 32] and no field or direction has a comma or a
    period. *)
Theorem FindParams_link_roundtrip (a : Arch) (q : gmap string (list string))
    (dO dL : Z) (p : Params) (o : Z) :
  0 <= Limit p < 2 ^ 32 -> 0 <= o < 2 ^ 32 -> Forall plainSort (Sort' p) ->
  Get q ParamPageLimit = FormatUint (Limit p) ->
  Get q ParamPageOffset = FormatUint o ->
  Get q ParamSortBy = TrimPrefix (SortURL p) "sort=" ->
  FindParams a q dO dL =
  ({| Limit := Limit p; Offset := o; Sort' := Sort' p |}, None).
Proof.
  intros Hl Ho Hs El Eo Es.
  pose proof (FindParams_cases a q dO dL) as H.
  rewrite El, Eo, !paramValue_FormatUint in H by lia.
  destruct (Z.ltb_spec (Limit p) (2 ^ 32)); [|lia].
  destruct (Z.ltb_spec o (2 ^ 32)); [|lia].
  rewrite H, Es, SortURL_eq. do 2 f_equal.
  destruct (Sort' p) as [|s0 l] eqn:E; [reflexivity|].
  rewrite TrimPrefix_sort. by apply sortsOfParam_Join.
Qed.

Lemma FindParams_link_roundtrip_witness :
  FindParams Arch64
    {[ "page[limit]" := ["5"]; "page[offset]" := ["15"];
       "sort" := ["first_name.asc,created_at.desc"] ]} 0 10 =
  ({| Limit := 5; Offset := 15;
      Sort' := [{| Field := "first_name"; Order := "asc" |};
                {| Field := "created_at"; Order := "desc" |}] |}, None).
Proof.
  apply (FindParams_link_roundtrip Arch64 _ 0 10
           {| Limit := 5; Offset := 0;
              Sort' := [{| Field := "first_name"; Order := "asc" |};
                        {| Field := "created_at"; Order := "desc" |}] |} 15).
  - simpl. lia.
  - lia.
  - repeat constructor.
  - vm_compute. reflexivity.
  - vm_compute. reflexivity.
  - vm_compute. reflexivity.
Defined.

(** ** Pages and their neighbours *)

Lemma usub_uadd (a : Arch) (x y : Z) : is_uint a x -> usub a (uadd a x y) y = x.
Proof.
  intros Hx. unfold usub, uadd, wrap.
  rewrite Zminus_mod_idemp_l. replace (x + y - y) with x by lia.
  by apply Z.mod_small.
Qed.

Lemma uadd_usub (a : Arch) (x y : Z) : is_uint a x -> uadd a (usub a x y) y = x.
Proof.
  intros Hx. unfold usub, uadd, wrap.
  rewrite Zplus_mod_idemp_l. replace (x - y + y) with x by lia.
  by apply Z.mod_small.
Qed.

(** X2 (next, then previous).  On the page the next link points at (same
    limit and sorts, offset [Offset + Limit] as [uint]), the previous link
    is the link of the page one came from, wrap-around or not, provided the
    new offset is not [0]; and on the page the previous link points at, the
    next link (present when that page is full) comes back likewise. *)
Theorem Paginate_next_prev {A} (a : Arch) (data' : list A) (baseURL : string)
    (params : Params) :
  is_uint a (Limit params) -> is_uint a (Offset params) ->
  (0 < uadd a (Offset params) (Limit params) ->
   exists r',
     Paginate a data' baseURL
       {| Limit := Limit params;
          Offset := uadd a (Offset params) (Limit params);
          Sort' := Sort' params |} = Some r' /\
     Prev (Links' r') = pageLink baseURL params (FormatUint (Offset params))) /\
  (Limit params < wrap a (Z.of_nat (length data')) ->
   exists r',
     Paginate a data' baseURL
       {| Limit := Limit params;
          Offset := usub a (Offset params) (Limit params);
          Sort' := Sort' params |} = Some r' /\
     Next (Links' r') = pageLink baseURL params (FormatUint (Offset params))).
Proof.
  intros Hl Ho. split; intros H.
  - rewrite Paginate_eq by done. eexists; split; [reflexivity|].
    rewrite buildLinks_eq. cbn [Links' Prev Limit Offset].
    destruct (Z.ltb_spec 0 (uadd a (Offset params) (Limit params))); [|lia].
    by rewrite usub_uadd.
  - rewrite Paginate_eq by done. eexists; split; [reflexivity|].
    rewrite buildLinks_eq. cbn [Links' Next Limit Offset].
    destruct (Z.ltb_spec (Limit params) (wrap a (Z.of_nat (length data')))); [|lia].
    by rewrite uadd_usub.
Qed.

Lemma Paginate_next_prev_witness :
  exists r',
    Paginate Arch64 ["x"] "/sample" {| Limit := 5; Offset := 15; Sort' := [] |} = Some r' /\
    Prev (Links' r') = "/sample?page[limit]=5&page[offset]=10".
Proof.
  destruct (Paginate_next_prev Arch64 ["x"] "/sample"
              {| Limit := 5; Offset := 10; Sort' := [] |}) as [H _].
  - unfold is_uint. simpl. lia.
  - unfold is_uint. simpl. lia.
  - destruct H as (r' & Hr & Hp); [vm_compute; reflexivity|].
    exists r'. split; [exact Hr|]. rewrite Hp. reflexivity.
Defined.

(** X3 (page size).  The data of the response is a prefix of the items.
    Given at most [Limit + 1] items, which is what [Query] asks the data
    layer for, the page has [min (len, Limit)] items; given more, only the
    last item goes and the page is longer than [Limit]. *)
Theorem Paginate_page_size {A} (a : Arch) (data : list A) (baseURL : string)
    (params : Params) :
  is_uint a (Limit params) -> is_len a (length data) ->
  exists r, Paginate a data baseURL params = Some r /\
    Data r = firstn (length (Data r)) data /\
    (Z.of_nat (length data) <= Limit params + 1 ->
     Z.of_nat (length (Data r)) = Z.min (Z.of_nat (length data)) (Limit params)) /\
    (Limit params + 1 < Z.of_nat (length data) ->
     Z.of_nat (length (Data r)) = Z.of_nat (length data) - 1 /\
     Limit params < Z.of_nat (length (Data r))).
Proof.
  intros Hl Hn. rewrite Paginate_eq by done. eexists; split; [reflexivity|].
  cbn [Data]. rewrite wrap_len by done. unfold is_uint in Hl.
  destruct (Z.ltb_spec (Limit params) (Z.of_nat (length data))) as [H|H].
  - assert (length (removelast data) = (length data - 1)%nat) as E.
    { destruct data as [|x data] using rev_ind; [reflexivity|].
      rewrite removelast_last, length_app. simpl. lia. }
    rewrite E. split; [|lia].
    rewrite removelast_firstn_len. f_equal. lia.
  - split; [by rewrite firstn_all|]. lia.
Qed.

Lemma Paginate_page_size_witness :
  exists r,
    Paginate Arch64 (samples 6) "/sample" {| Limit := 5; Offset := 0; Sort' := [] |} = Some r /\
    Z.of_nat (length (Data r)) = 5.
Proof.
  destruct (Paginate_page_size Arch64 (samples 6) "/sample"
              {| Limit := 5; Offset := 0; Sort' := [] |}) as (r & Hr & _ & H & _).
  - unfold is_uint. simpl. lia.
  - unfold is_len. simpl. lia.
  - exists r. split; [exact Hr|]. rewrite H by (simpl; lia). reflexivity.
Defined.

(** ** What [FindParams] returns *)

Lemma paramValue_is_uint (a : Arch) (s : string) (default v : Z) :
  is_uint a default -> paramValue s default = Some v -> is_uint a v.
Proof.
  unfold paramValue. intros Hd. destruct (String.eqb s "").
  - by intros [= <-].
  - intros H%uint32Value_range. unfold is_uint. split; [lia|].
    eapply Z.lt_le_trans; [apply H|]. by destruct a.
Qed.

(** X4 (the result holds [uint]s).  When the defaults are values of [uint],
    so are the limit and the offset of the parameters [FindParams] returns,
    with or without an error; and a limit or offset that was read from the
    request is below [2 ^ 32]. *)
Theorem FindParams_is_uint (a : Arch) (q : gmap string (list string)) (dO dL : Z) :
  is_uint a dO -> is_uint a dL ->
  is_uint a (Limit (FindParams a q dO dL).1) /\
  is_uint a (Offset (FindParams a q dO dL).1) /\
  ((FindParams a q dO dL).2 = None ->
   (Get q ParamPageLimit <> "" -> Limit (FindParams a q dO dL).1 < 2 ^ 32) /\
   (Get q ParamPageOffset <> "" -> Offset (FindParams a q dO dL).1 < 2 ^ 32)).
Proof.
  intros HdO HdL.
  pose proof (FindParams_cases a q dO dL) as H.
  destruct (paramValue (Get q ParamPageLimit) dL) as [l|] eqn:El.
  - pose proof (paramValue_is_uint a _ _ _ HdL El) as Hl.
    destruct (paramValue (Get q ParamPageOffset) dO) as [o|] eqn:Eo.
    + pose proof (paramValue_is_uint a _ _ _ HdO Eo) as Ho.
      rewrite H. cbn. split; [done|]. split; [done|]. intros _.
      unfold paramValue in El, Eo. split; intros Hne.
      * destruct (String.eqb_spec (Get q ParamPageLimit) ""); [done|].
        by apply uint32Value_range in El as [_ ?].
      * destruct (String.eqb_spec (Get q ParamPageOffset) ""); [done|].
        by apply uint32Value_range in Eo as [_ ?].
    + destruct H as [-> H]. cbn. done.
  - destruct H as [-> H]. cbn. done.
Qed.

Lemma FindParams_is_uint_witness :
  is_uint Arch32 (Limit (FindParams Arch32 {[ "page[limit]" := ["4294967295"] ]} 0 10).1).
Proof.
  apply (FindParams_is_uint Arch32 {[ "page[limit]" := ["4294967295"] ]} 0 10).
  - unfold is_uint. simpl. lia.
  - unfold is_uint. simpl. lia.
Defined.

Lemma sortOfToken_plain (token : string) (s : Sort) :
  hasByte "," token = false -> sortOfToken token = Some s -> plainSort s.
Proof.
  intros Hc (-> & Hf & Ho)%sortOfToken_Some.
  rewrite !hasByte_app in Hc.
  apply orb_false_iff in Hc as [Hcf Hco].
  apply orb_false_iff in Hco as [_ Hco]. done.
Qed.

Lemma sortsOfParam_plain (sort : string) : Forall plainSort (sortsOfParam sort).
Proof.
  unfold sortsOfParam. pose proof (Split_hasByte sort ",") as H.
  induction H as [|t ts Ht Hts IH]; [constructor|].
  cbn [omap list_omap]. destruct (sortOfToken t) as [s|] eqn:E; [|done].
  constructor; [by eapply sortOfToken_plain|done].
Qed.

Lemma FindParams_Sort_plain (a : Arch) (q : gmap string (list string)) (dO dL : Z) :
  Forall plainSort (Sort' (FindParams a q dO dL).1).
Proof.
  rewrite FindParams_Sort. destruct (FindParams a q dO dL).2; [constructor|].
  apply sortsOfParam_plain.
Qed.

(** X5 (the sorts are clean).  No field and no direction that [FindParams]
    returns has a comma or a period in it, whatever the request was; so the
    tokens [SortURL] writes for them are read back one for one. *)
Theorem FindParams_sorts_plain (a : Arch) (q : gmap string (list string)) (dO dL : Z) :
  Forall plainSort (Sort' (FindParams a q dO dL).1) /\
  omap sortOfToken (map sortToken (Sort' (FindParams a q dO dL).1)) =
  Sort' (FindParams a q dO dL).1.
Proof.
  pose proof (FindParams_Sort_plain a q dO dL) as H. split; [done|].
  induction H as [|s l Hs Hl IH]; [reflexivity|].
  cbn [map omap list_omap]. rewrite sortOfToken_sortToken by done.
  by rewrite IH.
Qed.

(** X6 (rendering and reading again changes nothing).  The sort URL of the
    parameters [FindParams] returned, given back as the sort parameter of
    another request, is read as the same sorts. *)
Theorem FindParams_SortURL_stable (a : Arch) (q q' : gmap string (list string))
    (dO dL dO' dL' : Z) :
  Get q' ParamSortBy = TrimPrefix (SortURL (FindParams a q dO dL).1) "sort=" ->
  (FindParams a q' dO' dL').2 = None ->
  Sort' (FindParams a q' dO' dL').1 = Sort' (FindParams a q dO dL).1.
Proof.
  intros Hq Herr. rewrite (FindParams_Sort a q'), Herr, Hq, SortURL_eq.
  pose proof (FindParams_Sort_plain a q dO dL) as Hp.
  destruct (Sort' (FindParams a q dO dL).1) as [|s0 l]; [reflexivity|].
  rewrite TrimPrefix_sort. by apply sortsOfParam_Join.
Qed.

Lemma FindParams_SortURL_stable_witness :
  Sort' (FindParams Arch64 {[ "sort" := ["name.asc,second_name.desc"] ]} 0 0).1 =
  Sort' (FindParams Arch64 {[ "sort" := ["name.asc,second_name.desc,asc(muz)"] ]} 2 4).1.
Proof.
  apply (FindParams_SortURL_stable Arch64
           {[ "sort" := ["name.asc,second_name.desc,asc(muz)"] ]}
           {[ "sort" := ["name.asc,second_name.desc"] ]} 2 4 0 0).
  - vm_compute. reflexivity.
  - vm_compute. reflexivity.
Defined.

Lemma sortToken_sortOfToken (token : string) (s : Sort) :
  sortOfToken token = Some s -> sortToken s = token.
Proof. by intros (-> & _)%sortOfToken_Some. Qed.

Lemma map_sortToken_omap (tokens : list string) :
  Forall (fun token => sortOfToken token <> None) tokens ->
  map sortToken (omap sortOfToken tokens) = tokens.
Proof.
  induction 1 as [|t ts Ht Hts IH]; [reflexivity|].
  cbn [omap list_omap]. destruct (sortOfToken t) as [s|] eqn:E; [|done].
  cbn [map]. by rewrite (sortToken_sortOfToken t s E), IH.
Qed.

(** X7 (a clean sort parameter is echoed).  When [FindParams] returns no
    error and every comma-separated token of the sort parameter is accepted,
    [SortURL] of the result is [sort=] and the sort parameter, byte for
    byte. *)
Theorem SortURL_echo (a : Arch) (q : gmap string (list string)) (dO dL : Z) :
  (FindParams a q dO dL).2 = None ->
  Forall (fun token => sortOfToken token <> None) (Split (Get q ParamSortBy) ",") ->
  SortURL (FindParams a q dO dL).1 = "sort=" +:+ Get q ParamSortBy.
Proof.
  intros Herr Hall. rewrite SortURL_eq, FindParams_Sort, Herr.
  unfold sortsOfParam. pose proof (Split_nonnil (Get q ParamSortBy) ",") as Hne.
  pose proof (map_sortToken_omap _ Hall) as Hmap.
  destruct (omap sortOfToken (Split (Get q ParamSortBy) ",")) as [|s0 l] eqn:E.
  - simpl in Hmap. by rewrite <- Hmap in Hne.
  - rewrite Hmap. by rewrite Join_Split.
Qed.

Lemma SortURL_echo_witness :
  SortURL (FindParams Arch64 {[ "sort" := ["name.asc,second_name.desc"] ]} 0 0).1 =
  "sort=name.asc,second_name.desc".
Proof.
  rewrite (SortURL_echo Arch64 {[ "sort" := ["name.asc,second_name.desc"] ]} 0 0).
  - vm_compute. reflexivity.
  - vm_compute. reflexivity.
  - vm_compute. repeat constructor; discriminate.
Defined.

(** ** Errors *)

Lemma pair_eq {A B} (p : A * B) (x : A) (y : B) : p.1 = x -> p.2 = y -> p = (x, y).
Proof. destruct p. simpl. by intros -> ->. Qed.

Lemma FindParams_limit_rejected (a : Arch) (q : gmap string (list string)) (dO dL : Z) :
  rejected (Get q ParamPageLimit) ->
  FindParams a q dO dL =
  ({| Limit := dL; Offset := dO; Sort' := [] |}, (ParseUint (Get q ParamPageLimit) 32).2).
Proof.
  intros Hr. pose proof (FindParams_cases a q dO dL) as H.
  rewrite (proj2 (paramValue_None _ dL) Hr) in H. destruct H as [H1 _].
  apply pair_eq; [done|]. rewrite FindParams_err. cbv zeta.
  destruct Hr as [Hne Hv].
  destruct (String.eqb_spec (Get q ParamPageLimit) ""); [done|].
  pose proof (ParseUint32_spec (Get q ParamPageLimit)) as Hp.
  destruct (ParseUint (Get q ParamPageLimit) 32) as [v [e|]]; [done|].
  congruence.
Qed.

(** X8 (the limit is judged first).  When the limit is refused, the result
    is the defaults, no sorts and the error of the limit: the offset and the
    sort parameter are not looked at, so two requests with the same refused
    limit get the same answer. *)
Theorem FindParams_limit_first (a : Arch) (q q' : gmap string (list string)) (dO dL : Z) :
  rejected (Get q ParamPageLimit) ->
  Get q' ParamPageLimit = Get q ParamPageLimit ->
  FindParams a q dO dL =
    ({| Limit := dL; Offset := dO; Sort' := [] |},
     (ParseUint (Get q ParamPageLimit) 32).2) /\
  (ParseUint (Get q ParamPageLimit) 32).2 <> None /\
  FindParams a q' dO dL = FindParams a q dO dL.
Proof.
  intros Hr E. split; [by apply FindParams_limit_rejected|]. split.
  - destruct Hr as [_ Hv]. pose proof (ParseUint32_spec (Get q ParamPageLimit)) as Hp.
    destruct (ParseUint (Get q ParamPageLimit) 32) as [v [e|]]; [done|congruence].
  - rewrite !FindParams_limit_rejected; rewrite ?E; done.
Qed.

Lemma FindParams_limit_first_witness :
  FindParams Arch64 {[ "page[limit]" := ["abc"]; "page[offset]" := ["7"];
                       "sort" := ["name.asc"] ]} 2 4 =
  FindParams Arch64 {[ "page[limit]" := ["abc"] ]} 2 4.
Proof.
  apply (FindParams_limit_first Arch64 {[ "page[limit]" := ["abc"] ]}
           {[ "page[limit]" := ["abc"]; "page[offset]" := ["7"];
              "sort" := ["name.asc"] ]} 2 4).
  - split; [vm_compute; discriminate | vm_compute; reflexivity].
  - vm_compute. reflexivity.
Defined.

(** On digits alone the loop of [ParseUint] stops only for a value above
    [maxVal], with a range error. *)
Lemma parseDigits_digits (maxVal : Z) (s : string) (n : Z) :
  0 <= n <= maxVal -> maxVal <= maxUint64 ->
  is_Some (NilEmpty.uint_of_string s) ->
  parseDigits maxVal s n =
  if readDigits s n <=? maxVal then (readDigits s n, None)
  else (maxVal, Some ErrRange).
Proof.
  unfold maxUint64. revert n. induction s as [|c s IH]; intros n Hn Hmax [d Hd].
  - simpl. by destruct (Z.leb_spec n maxVal); [|lia].
  - apply uint_of_string_cons in Hd as (d0 & Hd0 & Hc & _).
    assert (is_Some (NilEmpty.uint_of_string s)) as Hs by (by eexists).
    pose proof (isDigit_digitVal c Hc) as Hdv.
    pose proof (readDigits_mono s (10 * n + digitVal c) Hs) as Hmono.
    cbn [parseDigits readDigits]. rewrite Hc. cbv zeta.
    change (maxUint64 / 10 + 1) with 1844674407370955162.
    change (2 ^ 64) with 18446744073709551616 in *.
    destruct (Z.leb_spec 1844674407370955162 n) as [Hcut|Hcut].
    { by destruct (Z.leb_spec (readDigits s (10 * n + digitVal c)) maxVal); [lia|]. }
    rewrite (Z.mod_small (n * 10)) by lia.
    destruct (Z.ltb_spec (n * 10 + digitVal c) 18446744073709551616) as [Hfit|Hfit].
    + rewrite (Z.mod_small (n * 10 + digitVal c)) by lia.
      replace (n * 10 + digitVal c <? n * 10) with false
        by (symmetry; apply Z.ltb_ge; lia).
      rewrite orb_false_l.
      destruct (Z.ltb_spec maxVal (n * 10 + digitVal c)) as [Hbig|Hbig].
      { by destruct (Z.leb_spec (readDigits s (10 * n + digitVal c)) maxVal); [lia|]. }
      replace (10 * n + digitVal c) with (n * 10 + digitVal c) by lia.
      apply IH; [lia|lia|done].
    + replace ((n * 10 + digitVal c) mod 18446744073709551616)
        with (n * 10 + digitVal c - 18446744073709551616)
        by (apply (Z.mod_unique_pos _ _ 1); lia).
      replace (_ <? n * 10) with true by (symmetry; apply Z.ltb_lt; lia).
      rewrite orb_true_l.
      by destruct (Z.leb_spec (readDigits s (10 * n + digitVal c)) maxVal); [lia|].
Qed.

Lemma ParseUint32_range (s : string) (v : Z) :
  decimalValue s = Some v -> 2 ^ 32 <= v ->
  ParseUint s 32 = (2 ^ 32 - 1, Some ErrRange).
Proof.
  intros (Hne & Hs & ->)%decimalValue_readDigits Hv. unfold ParseUint.
  destruct (String.eqb_spec s ""); [done|].
  rewrite parseDigits_digits by done.
  by destruct (Z.leb_spec (readDigits s 0) (2 ^ 32 - 1)); [lia|].
Qed.

(** X9 (kinds of error).  A limit of digits alone whose value is [2 ^ 32] or
    more is refused with a range error; a limit that starts with a byte that
    is no digit (a sign, a space, a letter) is refused with a syntax error.
    In both cases the defaults come back. *)
Theorem FindParams_limit_errors (a : Arch) (q : gmap string (list string)) (dO dL : Z) :
  (forall v, decimalValue (Get q ParamPageLimit) = Some v -> 2 ^ 32 <= v ->
     FindParams a q dO dL =
     ({| Limit := dL; Offset := dO; Sort' := [] |}, Some ErrRange)) /\
  (forall c rest, Get q ParamPageLimit = String c rest -> isDigit c = false ->
     FindParams a q dO dL =
     ({| Limit := dL; Offset := dO; Sort' := [] |}, Some ErrSyntax)).
Proof.
  split.
  - intros v Hv Hge.
    pose proof (ParseUint32_range _ _ Hv Hge) as Hp.
    rewrite FindParams_limit_rejected, Hp; [done|].
    split; [by eapply decimalValue_nonempty|].
    pose proof (ParseUint32_spec (Get q ParamPageLimit)) as H.
    by rewrite Hp in H.
  - intros c rest E Hc.
    assert (ParseUint (Get q ParamPageLimit) 32 = (0, Some ErrSyntax)) as Hp.
    { rewrite E. unfold ParseUint. cbn [String.eqb parseDigits]. by rewrite Hc. }
    rewrite FindParams_limit_rejected, Hp; [done|].
    split; [by rewrite E|].
    pose proof (ParseUint32_spec (Get q ParamPageLimit)) as H.
    by rewrite Hp in H.
Qed.

Lemma FindParams_limit_errors_witness :
  FindParams Arch64 {[ "page[limit]" := ["-1"] ]} 2 4 =
  ({| Limit := 4; Offset := 2; Sort' := [] |}, Some ErrSyntax).
Proof.
  apply (FindParams_limit_errors Arch64 {[ "page[limit]" := ["-1"] ]} 2 4) with "-"%char "1".
  - vm_compute. reflexivity.
  - vm_compute. reflexivity.
Defined.

(** ** The ends of the range *)

(** X10 (following a wrapped previous link).  For [0 < Offset < Limit < 2 ^ 32]
    the previous link carries the wrapped offset.  Given back to
    [FindParams], on a 64-bit target it is refused: the call returns an
    error.  On a 32-bit target it is accepted, and the offset of the result
    is [2 ^ 32 + Offset - Limit]. *)
Theorem FindParams_wrapped_prev (a : Arch) (q : gmap string (list string))
    (dO dL limit offset : Z) :
  0 < offset < limit -> limit < 2 ^ 32 ->
  Get q ParamPageOffset = FormatUint (usub a offset limit) ->
  match a with
  | Arch64 => (FindParams a q dO dL).2 <> None
  | Arch32 =>
      forall l, paramValue (Get q ParamPageLimit) dL = Some l ->
        FindParams a q dO dL =
        ({| Limit := l; Offset := 2 ^ 32 + offset - limit;
            Sort' := sortsOfParam (Get q ParamSortBy) |}, None)
  end.
Proof.
  intros Ho Hl Hq.
  pose proof (FindParams_cases a q dO dL) as H.
  assert (usub a offset limit = 2 ^ uintBits a + offset - limit) as E.
  { apply usub_underflow; [| |lia]; unfold is_uint; destruct a; simpl; lia. }
  rewrite Hq, E in H. destruct a; cbn [uintBits] in H.
  - intros l Hlim. rewrite Hlim, paramValue_FormatUint in H by lia.
    by destruct (Z.ltb_spec (2 ^ 32 + offset - limit) (2 ^ 32)); [|lia].
  - rewrite paramValue_FormatUint in H by lia.
    destruct (Z.ltb_spec (2 ^ 64 + offset - limit) (2 ^ 32)); [lia|].
    destruct (paramValue (Get q ParamPageLimit) dL); by destruct H.
Qed.

Lemma FindParams_wrapped_prev_witness :
  (FindParams Arch64
     {[ "page[limit]" := ["5"]; "page[offset]" := ["18446744073709551614"] ]} 0 10).2
  <> None.
Proof.
  apply (FindParams_wrapped_prev Arch64
           {[ "page[limit]" := ["5"]; "page[offset]" := ["18446744073709551614"] ]}
           0 10 5 3).
  - lia.
  - lia.
  - vm_compute. reflexivity.
Defined.

(** X11 (limit zero).  With [Limit = 0] every non-empty slice loses its last
    item and gets a next link, and both the next and the previous link carry
    the offset of the page itself. *)
Theorem Paginate_zero_limit {A} (a : Arch) (data : list A) (baseURL : string)
    (params : Params) :
  Limit params = 0 -> is_uint a (Offset params) -> is_len a (length data) ->
  exists r, Paginate a data baseURL params = Some r /\
    Data r = removelast data /\
    Next (Links' r) =
      match data with
      | [] => ""
      | _ :: _ => pageLink baseURL params (FormatUint (Offset params))
      end /\
    Prev (Links' r) =
      if 0 <? Offset params
      then pageLink baseURL params (FormatUint (Offset params))
      else "".
Proof.
  intros Hl Ho Hn.
  assert (is_uint a (Limit params)) as Hu
    by (rewrite Hl; pose proof (pow_uintBits_pos a); unfold is_uint; lia).
  rewrite Paginate_eq by done. eexists; split; [reflexivity|].
  rewrite buildLinks_eq. cbn [Data Links' Next Prev]. rewrite wrap_len by done.
  rewrite Hl. unfold uadd, usub. rewrite Z.add_0_r, Z.sub_0_r, (wrap_uint a _ Ho).
  destruct data as [|x data]; [done|].
  by replace (0 <? Z.of_nat (length (x :: data))) with true
    by (symmetry; apply Z.ltb_lt; rewrite length_cons; lia).
Qed.

Lemma Paginate_zero_limit_witness :
  exists r,
    Paginate Arch64 ["a"] "/sample" {| Limit := 0; Offset := 7; Sort' := [] |} = Some r /\
    Data r = [] /\
    Next (Links' r) = "/sample?page[limit]=0&page[offset]=7".
Proof.
  destruct (Paginate_zero_limit Arch64 ["a"] "/sample"
              {| Limit := 0; Offset := 7; Sort' := [] |}) as (r & Hr & Hd & Hn & _).
  - reflexivity.
  - unfold is_uint. simpl. lia.
  - unfold is_len. simpl. lia.
  - exists r. split; [exact Hr|]. rewrite Hd, Hn. split; reflexivity.
Defined.

(** X12 (the largest limit).  At the largest [uint], [Limit + 1] wraps:
    [Query] asks for [LIMIT 0]; and [Paginate] never drops an item and never
    gives a next link, since no slice is that long. *)
Theorem largest_limit {A} (a : Arch) (data : list A) (baseURL : string)
    (params : Params) :
  Limit params = 2 ^ uintBits a - 1 -> is_len a (length data) ->
  Query a params =
    " LIMIT 0 OFFSET " +:+ FormatUint (Offset params) +:+ " " +:+
    match Sort' params with
    | [] => ""
    | _ :: _ => "ORDER BY " +:+ Join (map orderToken (Sort' params)) ","
    end /\
  exists r, Paginate a data baseURL params = Some r /\
    Data r = data /\ Next (Links' r) = "".
Proof.
  intros Hl Hn. split.
  - rewrite Query_eq, Hl. unfold uadd, wrap.
    replace (2 ^ uintBits a - 1 + 1) with (2 ^ uintBits a) by lia.
    rewrite Z_mod_same_full. by destruct (Sort' params).
  - assert (is_uint a (Limit params)) as Hu
      by (rewrite Hl; pose proof (pow_uintBits_pos a); unfold is_uint; lia).
    rewrite Paginate_eq by done. eexists; split; [reflexivity|].
    rewrite buildLinks_eq. cbn [Data Links' Next]. rewrite wrap_len by done.
    assert (Z.of_nat (length data) <= Limit params) as Hle.
    { unfold is_len in Hn. rewrite Hl. destruct a; simpl in *; lia. }
    by destruct (Z.ltb_spec (Limit params) (Z.of_nat (length data))); [lia|].
Qed.

Lemma largest_limit_witness :
  Query Arch32 {| Limit := 4294967295; Offset := 0; Sort' := [] |} = " LIMIT 0 OFFSET 0 ".
Proof.
  destruct (largest_limit Arch32 (samples 2) ""
              {| Limit := 4294967295; Offset := 0; Sort' := [] |}) as [H _].
  - reflexivity.
  - unfold is_len. simpl. lia.
  - rewrite H. reflexivity.
Defined.

(** X13 (the next offset wraps).  When [Offset + Limit] passes the largest
    [uint], the next link carries [Offset + Limit - 2 ^ uintBits], an offset
    below the one of the page. *)
Theorem Paginate_next_wraps {A} (a : Arch) (data : list A) (baseURL : string)
    (params : Params) :
  is_uint a (Limit params) -> is_uint a (Offset params) -> is_len a (length data) ->
  Limit params < Z.of_nat (length data) ->
  2 ^ uintBits a <= Offset params + Limit params ->
  exists r, Paginate a data baseURL params = Some r /\
    Next (Links' r) =
      pageLink baseURL params
        (FormatUint (Offset params + Limit params - 2 ^ uintBits a)) /\
    0 <= Offset params + Limit params - 2 ^ uintBits a < Offset params.
Proof.
  intros Hl Ho Hn Hlt Hover.
  rewrite Paginate_eq by done. eexists; split; [reflexivity|].
  rewrite buildLinks_eq. cbn [Links' Next]. rewrite wrap_len by done.
  destruct (Z.ltb_spec (Limit params) (Z.of_nat (length data))); [|lia].
  unfold is_uint in *.
  assert (uadd a (Offset params) (Limit params) =
          Offset params + Limit params - 2 ^ uintBits a) as ->.
  { unfold uadd, wrap. symmetry. apply (Z.mod_unique_pos _ _ 1); lia. }
  split; [reflexivity|lia].
Qed.

Lemma Paginate_next_wraps_witness :
  exists r,
    Paginate Arch32 (samples 6) "/sample"
      {| Limit := 5; Offset := 4294967294; Sort' := [] |} = Some r /\
    Next (Links' r) = "/sample?page[limit]=5&page[offset]=3".
Proof.
  destruct (Paginate_next_wraps Arch32 (samples 6) "/sample"
              {| Limit := 5; Offset := 4294967294; Sort' := [] |}) as (r & Hr & Hn & _).
  - unfold is_uint. simpl. lia.
  - unfold is_uint. simpl. lia.
  - unfold is_len. simpl. lia.
  - simpl. lia.
  - simpl. lia.
  - exists r. split; [exact Hr|]. rewrite Hn. reflexivity.
Defined.

Lemma sapp_length (s t : string) :
  String.length (s +:+ t) = (String.length s + String.length t)%nat.
Proof. induction s as [|c s IH]; [reflexivity|]. rewrite sapp_cons. simpl. by rewrite IH. Qed.

Lemma sapp_inj_r (s t u : string) : s +:+ u = t +:+ u -> s = t.
Proof.
  revert t. induction s as [|c s IH]; intros [|d t] H.
  - reflexivity.
  - apply (f_equal String.length) in H. rewrite !sapp_length in H. simpl in H. lia.
  - apply (f_equal String.length) in H. rewrite !sapp_length in H. simpl in H. lia.
  - rewrite !sapp_cons in H. injection H as -> H. f_equal. by apply IH.
Qed.

Lemma pageLink_inj (baseURL : string) (params : Params) (x y : string) :
  pageLink baseURL params x = pageLink baseURL params y -> x = y.
Proof.
  unfold pageLink. intros H.
  do 4 apply String.app_inj in H. by apply sapp_inj_r in H.
Qed.

(** X14 (previous and first).  When there is a previous link, it is the same
    string as the first link exactly when [Offset = Limit], that is on the
    second page; in particular a wrapped previous link is never the first
    link. *)
Theorem Paginate_prev_is_first {A} (a : Arch) (data : list A) (baseURL : string)
    (params : Params) :
  is_uint a (Limit params) -> is_uint a (Offset params) -> 0 < Offset params ->
  exists r, Paginate a data baseURL params = Some r /\
    (Prev (Links' r) = First (Links' r) <-> Offset params = Limit params).
Proof.
  intros Hl Ho Hpos. rewrite Paginate_eq by done. eexists; split; [reflexivity|].
  rewrite buildLinks_eq. cbn [Links' Prev First].
  destruct (Z.ltb_spec 0 (Offset params)); [|lia].
  pose proof (wrap_is_uint a (Offset params - Limit params)) as Hw.
  unfold is_uint in *. split.
  - intros E%pageLink_inj. apply (FormatUint_inj _ 0) in E; [|unfold usub; lia..].
    destruct (Z.lt_trichotomy (Offset params) (Limit params)) as [Hlt|[Heq|Hgt]];
      [|done|].
    + rewrite usub_underflow in E by done. lia.
    + rewrite usub_exact in E by lia. lia.
  - intros ->. unfold usub, wrap. rewrite Z.sub_diag, Z.mod_0_l; [done|].
    pose proof (pow_uintBits_pos a). lia.
Qed.

Lemma Paginate_prev_is_first_witness :
  exists r,
    Paginate Arch64 (samples 5) "/sample" {| Limit := 5; Offset := 5; Sort' := [] |} = Some r /\
    Prev (Links' r) = First (Links' r).
Proof.
  destruct (Paginate_prev_is_first Arch64 (samples 5) "/sample"
              {| Limit := 5; Offset := 5; Sort' := [] |}) as (r & Hr & H).
  - unfold is_uint. simpl. lia.
  - unfold is_uint. simpl. lia.
  - simpl. lia.
  - exists r. split; [exact Hr|]. by apply H.
Defined.

(** ** The window of a page *)

(** X15 (the sentinel finds the end).  Let the items be what a data layer
    returns for [LIMIT Limit+1 OFFSET Offset] over the rows [all]: the first
    [Limit + 1] rows after [Offset] rows.  Then the data of the response are
    the first [Limit] rows after [Offset] rows, and there is a next link
    exactly when rows remain after this page. *)
Theorem Paginate_window {A} (a : Arch) (all data : list A) (baseURL : string)
    (params : Params) :
  is_uint a (Limit params) -> is_uint a (Offset params) -> is_len a (length data) ->
  data = firstn (Z.to_nat (Limit params + 1)) (skipn (Z.to_nat (Offset params)) all) ->
  exists r, Paginate a data baseURL params = Some r /\
    Data r = firstn (Z.to_nat (Limit params)) (skipn (Z.to_nat (Offset params)) all) /\
    (Next (Links' r) <> "" <-> Offset params + Limit params < Z.of_nat (length all)).
Proof.
  intros Hl Ho Hn Hdata.
  rewrite Paginate_eq by done. eexists; split; [reflexivity|].
  rewrite buildLinks_eq. cbn [Data Links' Next]. rewrite wrap_len by done.
  unfold is_uint in Hl, Ho.
  set (rest := skipn (Z.to_nat (Offset params)) all) in *.
  assert (length rest = (length all - Z.to_nat (Offset params))%nat) as Hrest
    by apply length_skipn.
  assert (length data = Nat.min (Z.to_nat (Limit params + 1)) (length rest)) as Hlen
    by (rewrite Hdata; apply length_firstn).
  replace (Z.to_nat (Limit params + 1)) with (S (Z.to_nat (Limit params))) in * by lia.
  destruct (Z.ltb_spec (Limit params) (Z.of_nat (length data))) as [H|H].
  - split.
    + rewrite Hdata. apply removelast_firstn. lia.
    + split; [lia|]. intros _. apply pageLink_nonempty.
  - split.
    + rewrite Hdata, !firstn_all2 by lia. reflexivity.
    + split; [done|]. lia.
Qed.

Lemma Paginate_window_witness :
  exists r,
    Paginate Arch64 ["c"; "d"; "e"] "/rows" {| Limit := 2; Offset := 2; Sort' := [] |} = Some r /\
    Data r = ["c"; "d"] /\ Next (Links' r) <> "".
Proof.
  destruct (Paginate_window Arch64 ["a"; "b"; "c"; "d"; "e"; "f"] ["c"; "d"; "e"] "/rows"
              {| Limit := 2; Offset := 2; Sort' := [] |}) as (r & Hr & Hd & Hn).
  - unfold is_uint. simpl. lia.
  - unfold is_uint. simpl. lia.
  - unfold is_len. simpl. lia.
  - reflexivity.
  - exists r. split; [exact Hr|]. split; [exact Hd|]. apply Hn. simpl. lia.
Defined.

(** ** The width of [uint] *)

(** X16 (the extractor does not depend on the target).  The conversion
    [uint(converted)] never changes the number [ParseUint] returned, so
    [FindParams] gives the same parameters and the same error on 32-bit and
    on 64-bit targets. *)
Theorem FindParams_portable (q : gmap string (list string)) (dO dL : Z) :
  FindParams Arch32 q dO dL = FindParams Arch64 q dO dL.
Proof.
  pose proof (FindParams_cases Arch32 q dO dL) as H32.
  pose proof (FindParams_cases Arch64 q dO dL) as H64.
  pose proof (FindParams_err Arch32 q dO dL) as E32.
  pose proof (FindParams_err Arch64 q dO dL) as E64.
  destruct (paramValue (Get q ParamPageLimit) dL) as [l|].
  - destruct (paramValue (Get q ParamPageOffset) dO) as [o|]; [congruence|].
    destruct H32 as [H32 _], H64 as [H64 _].
    rewrite (surjective_pairing (FindParams Arch32 q dO dL)).
    rewrite (surjective_pairing (FindParams Arch64 q dO dL)). congruence.
  - destruct H32 as [H32 _], H64 as [H64 _].
    rewrite (surjective_pairing (FindParams Arch32 q dO dL)).
    rewrite (surjective_pairing (FindParams Arch64 q dO dL)). congruence.
Qed.
